(** * Sparse offset index of a log segment

    Shallow embedding of [src/v/storage/segment_offset_index.cc]
    (class [storage::segment_offset_index]) and the properties of its
    sampler ([maybe_track]), locator ([lower_bound_pair]), mutator
    ([truncate]) and persister ([materialize_index], [flush]). *)

From Stdlib Require Import ZArith Lia.
From stdpp Require Import base tactics option list sorting.

Local Open Scope Z_scope.

(** ** Machine integers

    [model::offset] wraps an [int64_t], [size_t] is 64 bits wide and the
    stored pairs are [std::pair<uint32_t, uint32_t>].  Integers are values
    of [Z]; every conversion and every unsigned operation of the source is
    written with its wrap-around. *)

Definition uint32_modulus : Z := 2 ^ 32.
Definition size_modulus : Z := 2 ^ 64.
Definition int64_min : Z := - 2 ^ 63.
Definition int64_max : Z := 2 ^ 63 - 1.

(** [static_cast<uint32_t>(z)], also the implicit conversion in
    [const uint32_t i = ...]. *)
Definition cast_uint32 (z : Z) : Z := z mod uint32_modulus.

(** Two's complement representative of [z] in [int64_t]. *)
Definition wrap_int64 (z : Z) : Z := (z - int64_min) mod size_modulus + int64_min.

(** [a + b] on [size_t]. *)
Definition size_add (a b : Z) : Z := (a + b) mod size_modulus.

(** [o() - _base()] and [_base + model::offset(x)] on [int64_t]. *)
Definition offset_sub (o b : Z) : Z := wrap_int64 (o - b).
Definition offset_add (b x : Z) : Z := wrap_int64 (b + x).

(** [const uint32_t i = o() - _base();] *)
Definition relative_offset (b o : Z) : Z := cast_uint32 (offset_sub o b).

Definition is_uint32 (z : Z) : Prop := 0 ≤ z < uint32_modulus.
Definition is_int64 (z : Z) : Prop := int64_min ≤ z ≤ int64_max.

(** ** The index object *)

(** One element of [_positions]: (relative offset, byte position). *)
Abbreviation entry := (Z * Z)%type.

Record segment_offset_index : Type := mk_index {
  _base : Z;                  (* model::offset, immutable *)
  _step : Z;                  (* size_t, immutable *)
  _acc : Z;                   (* size_t *)
  _needs_persistence : bool;
  _last_seen_offset : Z;      (* model::offset *)
  _positions : list entry     (* std::vector<std::pair<uint32_t, uint32_t>> *)
}.

Definition set_acc (a : Z) (s : segment_offset_index) : segment_offset_index :=
  mk_index (_base s) (_step s) a (_needs_persistence s)
           (_last_seen_offset s) (_positions s).
Definition set_needs_persistence (b : bool) (s : segment_offset_index)
  : segment_offset_index :=
  mk_index (_base s) (_step s) (_acc s) b (_last_seen_offset s) (_positions s).
Definition set_last_seen_offset (o : Z) (s : segment_offset_index)
  : segment_offset_index :=
  mk_index (_base s) (_step s) (_acc s) (_needs_persistence s) o (_positions s).
Definition set_positions (l : list entry) (s : segment_offset_index)
  : segment_offset_index :=
  mk_index (_base s) (_step s) (_acc s) (_needs_persistence s)
           (_last_seen_offset s) l.

(** ** The backing file

    [ss::file _out] is an external collaborator.  It is modelled by the
    bytes it holds, the log of the operations issued on it and a plan that
    fixes, for each coming operation, whether it succeeds.  A failing
    stream write may have put a prefix of its buffer into the file. *)

Inductive io_op : Type :=
  | io_size                      (* _out.size() *)
  | io_read_bulk (pos len : Z)   (* _out.dma_read_bulk<char>(pos, len) *)
  | io_truncate (len : Z)        (* _out.truncate(len) *)
  | io_write (buf : list Z)      (* out->write(b.get(), b.size()) *)
  | io_flush                     (* out->flush() *)
  | io_stream_close              (* out->close() *)
  | io_file_close.               (* _out.close() *)

Inductive io_outcome : Type :=
  | io_ok
  | io_error (written : nat).

(** A logged operation, with the value [_needs_persistence] had when the
    operation was issued. *)
Record io_event : Type := mk_event {
  ev_op : io_op;
  ev_needs_persistence : bool
}.

Record world : Type := mk_world {
  index : segment_offset_index;
  contents : list Z;           (* bytes of the backing file *)
  trace : list io_event;       (* file operations so far, oldest first *)
  plan : list io_outcome       (* outcomes of the coming operations *)
}.

Definition set_index (s : segment_offset_index) (w : world) : world :=
  mk_world s (contents w) (trace w) (plan w).

(** A stream over a fresh duplicate of the handle writes from position 0. *)
Definition write_at_start (buf old : list Z) : list Z :=
  buf ++ drop (length buf) old.

Definition file_truncate (len : Z) (old : list Z) : list Z :=
  take (Z.to_nat len) old ++ replicate (Z.to_nat len - length old)%nat 0.

Definition io_effect (op : io_op) (old : list Z) : list Z :=
  match op with
  | io_truncate len => file_truncate len old
  | io_write buf => write_at_start buf old
  | _ => old
  end.

Definition io_partial_effect (op : io_op) (written : nat) (old : list Z)
  : list Z :=
  match op with
  | io_write buf => write_at_start (take written buf) old
  | _ => old
  end.

(** ** Completions

    An operation either returns, completes with a failed future
    ([IoFailed]) or dies in [vassert] ([AssertFailed]). *)

Inductive result (A : Type) : Type :=
  | Ok (a : A)
  | IoFailed
  | AssertFailed.
Arguments Ok {A} a.
Arguments IoFailed {A}.
Arguments AssertFailed {A}.

Definition M (A : Type) : Type := world → world * result A.

#[global] Instance M_ret : MRet M := λ A a w, (w, Ok a).

(** [.then(...)]: the continuation runs only on a completed future. *)
#[global] Instance M_bind : MBind M := λ A B f m w,
  match m w with
  | (w', Ok a) => f a w'
  | (w', IoFailed) => (w', IoFailed)
  | (w', AssertFailed) => (w', AssertFailed)
  end.

Definition get_index : M segment_offset_index := λ w, (w, Ok (index w)).
Definition put_index (s : segment_offset_index) : M unit :=
  λ w, (set_index s w, Ok tt).

Definition vassert (cond : bool) : M unit :=
  λ w, (w, if cond then Ok tt else AssertFailed).

(** One call on the file: logged, then decided by the plan (an exhausted
    plan means success). [value] reads the answer off the old contents. *)
Definition file_call {A : Type} (op : io_op) (value : list Z → A) : M A :=
  λ w,
    let ev := mk_event op (_needs_persistence (index w)) in
    match plan w with
    | io_error n :: rest =>
        (mk_world (index w) (io_partial_effect op n (contents w))
                  (trace w ++ [ev]) rest, IoFailed)
    | _ =>
        (mk_world (index w) (io_effect op (contents w))
                  (trace w ++ [ev]) (tail (plan w)), Ok (value (contents w)))
    end.

(** ** Binary format of the persisted index *)

(** Modelled from the spec: [offset_index_to_buf] and
    [offset_index_from_buf] of [storage/segment_offset_index_utils.h], which
    is not part of the sources at hand.  The format is a headerless run of
    8-byte records, the relative offset as a 4-byte little-endian unsigned
    integer followed by the byte position as a 4-byte unsigned integer; the
    byte length alone gives the number of records. *)
Definition le32_bytes (x : Z) : list Z :=
  [x mod 256; (x / 256) mod 256; (x / 65536) mod 256; (x / 16777216) mod 256].

Definition le32_value (b0 b1 b2 b3 : Z) : Z :=
  b0 + 256 * b1 + 65536 * b2 + 16777216 * b3.

Fixpoint offset_index_to_buf (v : list entry) : list Z :=
  match v with
  | [] => []
  | (o, p) :: rest => le32_bytes o ++ le32_bytes p ++ offset_index_to_buf rest
  end.

Fixpoint offset_index_from_buf (buf : list Z) : list entry :=
  match buf with
  | b0 :: b1 :: b2 :: b3 :: b4 :: b5 :: b6 :: b7 :: rest =>
      (le32_value b0 b1 b2 b3, le32_value b4 b5 b6 b7)
        :: offset_index_from_buf rest
  | _ => []
  end.

(** ** [std::lower_bound] with [base_comparator] *)

(** [bool operator()(const pair& p, uint32_t needle)]: [p.first < needle]. *)
Definition base_comparator (p : entry) (needle : Z) : bool := p.1 <? needle.

(** The halving loop of [std::lower_bound] on the index range
    [first, first + count).  [count] shrinks in every round, so [count]
    rounds of fuel are never used up. *)
Fixpoint lower_bound_loop (fuel : nat) (v : list entry) (needle : Z)
    (first count : nat) : nat :=
  match fuel with
  | O => first
  | S fuel' =>
      match count with
      | O => first
      | _ =>
          let half := (count / 2)%nat in
          let mid := (first + half)%nat in
          match v !! mid with
          | Some p =>
              if base_comparator p needle
              then lower_bound_loop fuel' v needle (S mid) (count - S half)
              else lower_bound_loop fuel' v needle first half
          | None => first
          end
      end
  end.

(** Position of the iterator returned by
    [std::lower_bound(begin, end, needle, base_comparator{})];
    [length v] stands for [end]. *)
Definition std_lower_bound (v : list entry) (needle : Z) : nat :=
  lower_bound_loop (length v) v needle 0 (length v).

(** ** The operations of [segment_offset_index] *)

(** Modelled from the spec: the member initialisers of the class declaration
    ([storage/segment_offset_index.h] is not part of the sources at hand): a
    constructed index has no entries, an empty accumulator and a clear dirty
    flag.  [last_seen] is the default-constructed [model::offset]. *)
Definition make_index (base : Z) (step : Z) (last_seen : Z)
  : segment_offset_index :=
  mk_index base step 0 false last_seen [].

(** The test of lines 31-37: a non-empty index whose last entry lies
    after the candidate. *)
Definition is_earlier_offset (s : segment_offset_index) (o : Z) : bool :=
  match last (_positions s) with
  | Some back => relative_offset (_base s) o <? back.1
  | None => false
  end.

Definition maybe_track (o pos data_size : Z) : M unit :=
  s ← get_index;
  vassert (_base s <=? o);;
  if is_earlier_offset s o then mret tt
  else
    let s := set_last_seen_offset o s in
    let s := set_acc (size_add (_acc s) data_size) s in
    if _step s <=? _acc s then
      put_index
        (set_needs_persistence true
           (set_positions
              (_positions s ++ [(relative_offset (_base s) o, cast_uint32 pos)])
              (set_acc 0 s)))
    else put_index s.

(** [_positions.empty()] *)
Definition vector_empty {A : Type} (v : list A) : bool :=
  match v with
  | [] => true
  | _ :: _ => false
  end.

(** [std::make_pair(_base + model::offset(it->first), it->second)] *)
Definition logical_pair (s : segment_offset_index) (p : entry) : Z * Z :=
  (offset_add (_base s) p.1, p.2).

Definition lower_bound_pair (o : Z) : M (option (Z * Z)) :=
  s ← get_index;
  vassert (_base s <=? o);;
  if vector_empty (_positions s) then mret None
  else
    let i := relative_offset (_base s) o in
    let it := std_lower_bound (_positions s) i in
    let it := if (it =? length (_positions s))%nat then pred it else it in
    match _positions s !! it with
    | None => mret None
    | Some p =>
        if p.1 <=? i then mret (Some (logical_pair s p))
        else
          let it := if (0 <? it)%nat then pred it else it in
          match _positions s !! it with
          | None => mret None
          | Some q =>
              if q.1 <=? i then mret (Some (logical_pair s q))
              else mret None
          end
    end.

Definition lower_bound (o : Z) : M (option Z) :=
  opt ← lower_bound_pair o;
  match opt with
  | Some p => mret (Some p.2)
  | None => mret None
  end.

(** The stream [out] is made over a duplicate of the handle; its write,
    flush and close are the three file operations after the truncation,
    and [.finally([out] {})] only keeps the stream alive. *)
Definition flush : M unit :=
  s ← get_index;
  if negb (_needs_persistence s) then mret tt
  else
    put_index (set_needs_persistence false s);;
    file_call (io_truncate 0) (λ _, tt);;
    s ← get_index;
    let b := offset_index_to_buf (_positions s) in
    file_call (io_write b) (λ _, tt);;
    file_call io_flush (λ _, tt);;
    file_call io_stream_close (λ _, tt).

(** Lines 103-110 of [truncate]: the work on the in-memory list. *)
Definition truncate_positions (o : Z) : M unit :=
  s ← get_index;
  let s := set_last_seen_offset o s in
  let i := relative_offset (_base s) o in
  let it := std_lower_bound (_positions s) i in
  if (it =? length (_positions s))%nat then put_index s
  else
    put_index (set_positions (take it (_positions s))
                 (set_needs_persistence true s)).

Definition truncate (o : Z) : M unit :=
  s ← get_index;
  vassert (_base s <=? o);;
  truncate_positions o;;
  flush.

Definition materialize_index : M bool :=
  size ← file_call io_size (λ c, Z.of_nat (length c));
  buf ← file_call (io_read_bulk 0 size) (λ c, take (Z.to_nat size) c);
  match buf with
  | [] => mret false
  | _ =>
      s ← get_index;
      put_index (set_positions (offset_index_from_buf buf) s);;
      mret true
  end.

Definition close : M unit :=
  flush;;
  file_call io_file_close (λ _, tt).

(** ** Histories of calls *)

Inductive operation : Type :=
  | op_track (o pos data_size : Z)
  | op_lookup (o : Z)
  | op_truncate (o : Z)
  | op_load
  | op_flush.

Definition perform (op : operation) : M unit :=
  match op with
  | op_track o pos data_size => maybe_track o pos data_size
  | op_lookup o => lower_bound_pair o;; mret tt
  | op_truncate o => truncate o
  | op_load => materialize_index;; mret tt
  | op_flush => flush
  end.

(** A failed future is handed to the caller, who goes on; a failed
    [vassert] ends the process. *)
Fixpoint run (ops : list operation) (w : world) : world :=
  match ops with
  | [] => w
  | op :: rest =>
      match perform op w with
      | (w', AssertFailed) => w'
      | (w', _) => run rest w'
      end
  end.

(** A newly constructed index over a freshly created, empty file. *)
Definition fresh_world (base step last_seen : Z) (faults : list io_outcome)
  : world :=
  mk_world (make_index base step last_seen) [] [] faults.

(** ** Predicates on the entry list *)

Definition entry_le (a b : entry) : Prop := a.1 ≤ b.1.

#[global] Instance entry_le_dec : RelDecision entry_le.
Proof. intros a b. unfold entry_le. apply _. Defined.

(** Ascending by relative offset; equal neighbours are allowed. *)
Definition sorted_by_offset (l : list entry) : Prop := StronglySorted entry_le l.

(** No relative offset is stored twice. *)
Definition duplicate_free_by_offset (l : list entry) : Prop := NoDup (l.*1).

(** Both halves of a stored pair are [uint32_t] values. *)
Definition entry_fits (p : entry) : Prop := is_uint32 p.1 ∧ is_uint32 p.2.

(** ** Invariants *)

Definition entries_ok (l : list entry) : Prop :=
  sorted_by_offset l ∧ Forall entry_fits l.

(** The file holds what some write of a well-formed entry list left
    there, possibly cut short. *)
Definition file_ok (c : list Z) : Prop :=
  ∃ (l : list entry) (n : nat),
    entries_ok l ∧ c = take n (offset_index_to_buf l).

Definition world_ok (w : world) : Prop :=
  entries_ok (_positions (index w)) ∧ file_ok (contents w).

(** Unfolds the plumbing of [M] in a goal. *)
Ltac unfold_M :=
  unfold mbind, M_bind, mret, M_ret, get_index, put_index, vassert; simpl.

(** An outcome of the plan that completes its operation. *)
Definition succeeds (o : io_outcome) : Prop := o = io_ok.

#[global] Instance succeeds_dec (o : io_outcome) : Decision (succeeds o).
Proof. unfold succeeds. destruct o; [left|right]; congruence. Defined.

(** The four file operations of one [flush], as they are logged once the
    dirty flag has been cleared. *)
Definition flush_events (s : segment_offset_index) : list io_event :=
  [mk_event (io_truncate 0) false;
   mk_event (io_write (offset_index_to_buf (_positions s))) false;
   mk_event io_flush false;
   mk_event io_stream_close false].

(** ** Sample indexes

    The index of the example of the specification: base offset 100 and
    entries at the relative offsets 0, 1000 and 2500. *)

Definition example_entries : list entry := [(0, 0); (1000, 512); (2500, 1300)].

Definition example_world : world :=
  mk_world (mk_index 100 4096 0 false 2600 example_entries) [] [] [].

(** The same index with changes that wait for a flush. *)
Definition dirty_example_world (faults : list io_outcome) : world :=
  mk_world (mk_index 100 4096 0 true 2600 example_entries) [] [] faults.

(** Closes the side conditions of a concrete instance. *)
Ltac concrete :=
  repeat first [done | constructor];
  unfold entry_le, entry_fits, is_uint32, is_int64, uint32_modulus,
    int64_min, int64_max; simpl; try lia.

(** ** Invariants of histories *)

(** The accumulator at rest: empty, or short of the step. *)
Definition acc_ok (s : segment_offset_index) : Prop :=
  0 ≤ _acc s ∧ (_acc s = 0 ∨ _acc s < _step s).

(** When the flag says clean, the file holds the encoded entries. *)
Definition synced (w : world) : Prop :=
  _needs_persistence (index w) = false →
  contents w = offset_index_to_buf (_positions (index w)).

(** Calls that work in memory only. *)
Definition in_memory (op : operation) : Prop :=
  match op with
  | op_track _ _ _ | op_lookup _ => True
  | _ => False
  end.

(** An index that has not loaded its file yet, over a file that holds the
    encoded sample entries. *)
Definition unloaded_example_world (faults : list io_outcome) : world :=
  mk_world (mk_index 100 4096 0 false 0 [])
    (offset_index_to_buf example_entries) [] faults.

(** * Properties *)

(** ** Machine arithmetic on values in range *)

Lemma cast_uint32_range z : is_uint32 (cast_uint32 z).
Proof. unfold is_uint32, cast_uint32, uint32_modulus. apply Z.mod_pos_bound. lia. Qed.

Lemma cast_uint32_id z : is_uint32 z → cast_uint32 z = z.
Proof. unfold is_uint32, cast_uint32. intros H. by apply Z.mod_small. Qed.

Lemma wrap_int64_id z : is_int64 z → wrap_int64 z = z.
Proof.
  unfold is_int64, wrap_int64, int64_min, int64_max, size_modulus. intros H.
  rewrite Z.mod_small; lia.
Qed.

Lemma size_add_id a b : 0 ≤ a + b < size_modulus → size_add a b = a + b.
Proof. unfold size_add. intros H. by apply Z.mod_small. Qed.

(** The low 32 bits of a difference do not depend on the 64-bit wrap. *)
Lemma relative_offset_mod b o : relative_offset b o = (o - b) mod uint32_modulus.
Proof.
  unfold relative_offset, cast_uint32, offset_sub, wrap_int64.
  unfold int64_min, size_modulus, uint32_modulus.
  pose proof (Z.div_mod (o - b - - 2 ^ 63) (2 ^ 64) ltac:(lia)) as Hdiv.
  set (q := (o - b - - 2 ^ 63) / 2 ^ 64) in Hdiv.
  replace ((o - b - - 2 ^ 63) mod 2 ^ 64 + - 2 ^ 63)
    with (o - b + (- q * 2 ^ 32) * 2 ^ 32) by lia.
  apply Z.mod_add. lia.
Qed.

Lemma relative_offset_range b o : is_uint32 (relative_offset b o).
Proof. apply cast_uint32_range. Qed.

Lemma relative_offset_id b o :
  is_uint32 (o - b) → relative_offset b o = o - b.
Proof. intros H. rewrite relative_offset_mod. by apply Z.mod_small. Qed.

(** ** Sorted lists and [std::lower_bound] *)

Lemma sorted_by_offset_lookup (l : list entry) (i j : nat) (a b : entry) :
  sorted_by_offset l → (i ≤ j)%nat →
  l !! i = Some a → l !! j = Some b → a.1 ≤ b.1.
Proof.
  intros Hs. revert i j.
  induction Hs as [|x l Hs IH Hall]; intros i j Hij Hi Hj; [done|].
  destruct i as [|i], j as [|j]; simpl in *; try lia.
  - simplify_eq. lia.
  - simplify_eq. rewrite Forall_lookup in Hall. by apply (Hall j b).
  - apply (IH i j); [lia|done..].
Qed.

Lemma sorted_by_offset_snoc (l : list entry) (p : entry) :
  sorted_by_offset l →
  (∀ back, last l = Some back → back.1 ≤ p.1) →
  sorted_by_offset (l ++ [p]).
Proof.
  intros Hs Hback. unfold sorted_by_offset.
  apply StronglySorted_app; split; [|split; [done|by repeat constructor]].
  intros a b Ha Hb. apply list_elem_of_singleton in Hb as ->.
  apply list_elem_of_lookup in Ha as [i Hi].
  destruct (last l) as [back|] eqn:Hl.
  - rewrite last_lookup in Hl.
    unfold entry_le. etrans; [|by apply Hback].
    eapply (sorted_by_offset_lookup l i (pred (length l))); try done.
    apply lookup_lt_Some in Hi. lia.
  - apply last_None in Hl. subst. done.
Qed.

Lemma sorted_by_offset_take (l : list entry) (n : nat) :
  sorted_by_offset l → sorted_by_offset (take n l).
Proof.
  intros Hs. rewrite <- (take_drop n l) in Hs.
  by apply StronglySorted_app in Hs as (_ & ? & _).
Qed.

(** What the loop guarantees on a sorted vector: the answer splits the
    range into the entries below the needle and the others. *)
Lemma lower_bound_loop_sorted (v : list entry) (needle : Z) (fuel : nat) :
  sorted_by_offset v →
  ∀ first count : nat,
    (count ≤ fuel)%nat → (first + count ≤ length v)%nat →
    (∀ j p, (j < first)%nat → v !! j = Some p → p.1 < needle) →
    (∀ j p, (first + count ≤ j)%nat → v !! j = Some p → needle ≤ p.1) →
    let k := lower_bound_loop fuel v needle first count in
    (first ≤ k ≤ first + count)%nat
    ∧ (∀ j p, (j < k)%nat → v !! j = Some p → p.1 < needle)
    ∧ (∀ j p, (k ≤ j)%nat → v !! j = Some p → needle ≤ p.1).
Proof.
  intros Hs. induction fuel as [|fuel IH]; intros first count Hfuel Hlen Hlo Hhi.
  - assert (count = 0%nat) as -> by lia. simpl.
    split; [lia|]. split; [done|].
    intros j p Hj. apply Hhi. lia.
  - destruct count as [|c].
    { simpl. split; [lia|]. split; [done|]. intros j p Hj. apply Hhi. lia. }
    cbn [lower_bound_loop].
    set (half := (S c / 2)%nat).
    assert (half < S c)%nat as Hhalf.
    { subst half. apply Nat.Div0.div_lt_upper_bound. lia. }
    destruct (lookup_lt_is_Some_2 v (first + half)) as [p Hp]; [lia|].
    rewrite Hp. unfold base_comparator.
    destruct (Z.ltb_spec p.1 needle) as [Hlt|Hge].
    + destruct (IH (S (first + half)) (S c - S half)%nat) as (Hk & Hlo' & Hhi').
      * lia.
      * lia.
      * intros j q Hj Hq.
        pose proof (sorted_by_offset_lookup v j (first + half) q p Hs
                      ltac:(lia) Hq Hp).
        lia.
      * intros j q Hj. apply Hhi. lia.
      * split; [lia|done].
    + destruct (IH first half) as (Hk & Hlo' & Hhi').
      * lia.
      * lia.
      * done.
      * intros j q Hj Hq.
        pose proof (sorted_by_offset_lookup v (first + half) j p q Hs
                      ltac:(lia) Hp Hq).
        lia.
      * split; [lia|done].
Qed.

Lemma std_lower_bound_sorted (v : list entry) (needle : Z) :
  sorted_by_offset v →
  (std_lower_bound v needle ≤ length v)%nat
  ∧ (∀ j p, (j < std_lower_bound v needle)%nat → v !! j = Some p → p.1 < needle)
  ∧ (∀ j p, (std_lower_bound v needle ≤ j)%nat → v !! j = Some p → needle ≤ p.1).
Proof.
  intros Hs. unfold std_lower_bound.
  assert (∀ j p, (j < 0)%nat → v !! j = Some p → p.1 < needle) as Hlo
    by (intros; lia).
  assert (∀ j p, (0 + length v ≤ j)%nat → v !! j = Some p → needle ≤ p.1)
    as Hhi.
  { intros j p Hj Hp. apply lookup_lt_Some in Hp. lia. }
  destruct (lower_bound_loop_sorted v needle (length v) Hs 0 (length v)
              (Nat.le_refl _) (Nat.le_refl _) Hlo Hhi) as (Hk & Hlo' & Hhi').
  split; [lia|done].
Qed.

(** Whatever the vector holds, the answer stays inside the range. *)
Lemma lower_bound_loop_bounds (v : list entry) (needle : Z) (fuel : nat) :
  ∀ first count : nat,
    (first ≤ lower_bound_loop fuel v needle first count ≤ first + count)%nat.
Proof.
  induction fuel as [|fuel IH]; intros first count; [simpl; lia|].
  destruct count as [|c]; [simpl; lia|].
  cbn [lower_bound_loop].
  set (half := (S c / 2)%nat).
  assert (half < S c)%nat as Hhalf.
  { subst half. apply Nat.Div0.div_lt_upper_bound. lia. }
  destruct (v !! (first + half)%nat) as [p|]; [|lia].
  destruct (base_comparator p needle).
  - specialize (IH (S (first + half)) (S c - S half)%nat). lia.
  - specialize (IH first half). lia.
Qed.

Lemma std_lower_bound_le_length (v : list entry) (needle : Z) :
  (std_lower_bound v needle ≤ length v)%nat.
Proof.
  unfold std_lower_bound.
  pose proof (lower_bound_loop_bounds v needle (length v) 0 (length v)). lia.
Qed.

(** Every entry lies below the needle: the search ends at [end], sorted
    vector or not. *)
Lemma lower_bound_loop_all_below (v : list entry) (needle : Z) (fuel : nat) :
  Forall (λ p, p.1 < needle) v →
  ∀ first count : nat,
    (count ≤ fuel)%nat → (first + count ≤ length v)%nat →
    lower_bound_loop fuel v needle first count = (first + count)%nat.
Proof.
  intros Hall. rewrite Forall_lookup in Hall.
  induction fuel as [|fuel IH]; intros first count Hfuel Hlen.
  - simpl. lia.
  - destruct count as [|c]; [simpl; lia|].
    cbn [lower_bound_loop].
    set (half := (S c / 2)%nat).
    assert (half < S c)%nat as Hhalf.
    { subst half. apply Nat.Div0.div_lt_upper_bound. lia. }
    destruct (lookup_lt_is_Some_2 v (first + half)) as [p Hp]; [lia|].
    rewrite Hp. unfold base_comparator.
    pose proof (Hall _ _ Hp) as Hlt. simpl in Hlt.
    destruct (Z.ltb_spec p.1 needle); [|lia].
    rewrite IH; lia.
Qed.

Lemma std_lower_bound_all_below (v : list entry) (needle : Z) :
  Forall (λ p, p.1 < needle) v → std_lower_bound v needle = length v.
Proof.
  intros Hall. unfold std_lower_bound.
  rewrite (lower_bound_loop_all_below v needle (length v) Hall); lia.
Qed.

(** ** The binary format *)

Lemma le32_value_bytes (x : Z) :
  is_uint32 x →
  le32_value (x mod 256) ((x / 256) mod 256) ((x / 65536) mod 256)
             ((x / 16777216) mod 256) = x.
Proof.
  unfold is_uint32, uint32_modulus, le32_value. intros Hx.
  change 65536 with (256 * 256).
  change 16777216 with (256 * 256 * 256).
  rewrite <- !Z.div_div by lia.
  pose proof (Z.div_mod x 256 ltac:(lia)) as H0.
  pose proof (Z.div_mod (x / 256) 256 ltac:(lia)) as H1.
  pose proof (Z.div_mod (x / 256 / 256) 256 ltac:(lia)) as H2.
  assert (0 ≤ x / 256 / 256 / 256 < 256) as H3.
  { split.
    - repeat apply Z.div_pos; lia.
    - repeat (apply Z.div_lt_upper_bound; [lia|]). lia. }
  rewrite (Z.mod_small (x / 256 / 256 / 256)) by lia.
  lia.
Qed.

Lemma offset_index_from_to_buf_app (l : list entry) (rest : list Z) :
  Forall entry_fits l →
  offset_index_from_buf (offset_index_to_buf l ++ rest)
  = l ++ offset_index_from_buf rest.
Proof.
  induction 1 as [|[o p] l [Ho Hp] Hl IH]; [done|].
  cbn [offset_index_to_buf le32_bytes app offset_index_from_buf].
  simpl in Ho, Hp.
  rewrite !le32_value_bytes by done. by rewrite IH.
Qed.

Lemma offset_index_from_to_buf (l : list entry) :
  Forall entry_fits l → offset_index_from_buf (offset_index_to_buf l) = l.
Proof.
  intros Hl. rewrite <- (app_nil_r (offset_index_to_buf l)).
  rewrite offset_index_from_to_buf_app by done.
  simpl. by rewrite app_nil_r.
Qed.

Lemma offset_index_to_buf_length (l : list entry) :
  length (offset_index_to_buf l) = (8 * length l)%nat.
Proof.
  induction l as [|[o p] l IH]; [done|].
  cbn [offset_index_to_buf le32_bytes app length]. rewrite IH. lia.
Qed.

(** A buffer cut inside a record decodes to the records before the cut. *)
Lemma offset_index_from_buf_take (l : list entry) (n : nat) :
  Forall entry_fits l →
  offset_index_from_buf (take n (offset_index_to_buf l)) = take (n / 8) l.
Proof.
  intros Hl. revert n. induction Hl as [|[o p] l [Ho Hp] Hl IH]; intros n.
  - simpl. by rewrite !take_nil.
  - simpl in Ho, Hp.
    destruct (decide (n < 8)%nat) as [Hn|Hn].
    + rewrite (Nat.div_small n 8) by done.
      cbn [offset_index_to_buf le32_bytes app].
      do 8 (destruct n as [|n]; [done|]). lia.
    + replace n with (8 + (n - 8))%nat by lia.
      replace ((8 + (n - 8)) / 8)%nat with (S ((n - 8) / 8)).
      2:{ replace (8 + (n - 8))%nat with (1 * 8 + (n - 8))%nat by lia.
          rewrite Nat.div_add_l by lia. lia. }
      cbn [offset_index_to_buf le32_bytes app take offset_index_from_buf plus].
      rewrite !le32_value_bytes by done. by rewrite IH.
Qed.

(** ** Preservation of the invariants *)

Lemma entries_ok_nil : entries_ok [].
Proof. split; constructor. Qed.

Lemma entries_ok_take (l : list entry) (n : nat) :
  entries_ok l → entries_ok (take n l).
Proof.
  intros [Hs Hf]. split; [by apply sorted_by_offset_take|by apply Forall_take].
Qed.

Lemma entries_ok_snoc (l : list entry) (p : entry) :
  entries_ok l → entry_fits p →
  (∀ back, last l = Some back → back.1 ≤ p.1) →
  entries_ok (l ++ [p]).
Proof.
  intros [Hs Hf] Hp Hback. split; [by apply sorted_by_offset_snoc|].
  apply Forall_app. split; [done|by constructor].
Qed.

Lemma file_ok_decode (c : list Z) :
  file_ok c → entries_ok (offset_index_from_buf c).
Proof.
  intros (l & n & Hl & ->).
  rewrite offset_index_from_buf_take by apply Hl.
  by apply entries_ok_take.
Qed.

Lemma file_ok_nil : file_ok [].
Proof. exists [], 0%nat. split; [apply entries_ok_nil|done]. Qed.

Lemma file_ok_encode (l : list entry) (n : nat) :
  entries_ok l → file_ok (take n (offset_index_to_buf l)).
Proof. intros Hl. by exists l, n. Qed.

(** ** [flush] *)

Lemma Forall_take_le {A : Type} (P : A → Prop) (l : list A) (n m : nat) :
  (n ≤ m)%nat → Forall P (take m l) → Forall P (take n l).
Proof.
  intros Hnm H. apply (Forall_take _ n) in H.
  by rewrite take_take, Nat.min_l in H by lia.
Qed.

Lemma flush_clean (w : world) :
  _needs_persistence (index w) = false → flush w = (w, Ok tt).
Proof. intros H. unfold flush. unfold_M. by rewrite H. Qed.

Lemma write_at_start_nil (buf : list Z) : write_at_start buf [] = buf.
Proof. unfold write_at_start. by rewrite drop_nil, app_nil_r. Qed.

Local Ltac flush_equation :=
  simpl; rewrite ?write_at_start_nil, <- ?app_assoc; simpl; reflexivity.

Local Ltac flush_completes :=
  exists 3%nat; eexists _, _; split; [flush_equation|];
  split; [lia|]; split; [by repeat constructor|]; left;
  repeat split; by repeat constructor.

Local Ltac flush_fails_at k n :=
  exists k; eexists _, _; split; [flush_equation|];
  split; [lia|]; split; [by repeat constructor|]; right;
  split; [done|]; split; [by exists n|].

(** A flush of a dirty index, by the first operation that fails. *)
Lemma flush_dirty (w : world) :
  _needs_persistence (index w) = true →
  let s' := set_needs_persistence false (index w) in
  let b := offset_index_to_buf (_positions (index w)) in
  ∃ (k : nat) (c : list Z) (r : result unit),
    flush w = (mk_world s' c (trace w ++ take (S k) (flush_events (index w)))
                 (drop (S k) (plan w)), r)
    ∧ (k < 4)%nat
    ∧ Forall succeeds (take k (plan w))
    ∧ (r = Ok tt ∧ k = 3%nat ∧ Forall succeeds (take 4 (plan w)) ∧ c = b
       ∨ r = IoFailed ∧ (∃ n, plan w !! k = Some (io_error n))
         ∧ (c = contents w ∨ ∃ n, c = take n b)).
Proof.
  intros Hd. destruct w as [s c tr pl]. simpl in *.
  unfold flush, file_call, flush_events. unfold_M. rewrite Hd. simpl.
  unfold file_truncate. simpl.
  assert (∀ n, offset_index_to_buf (_positions s)
               = take (length (offset_index_to_buf (_positions s)) + n)
                      (offset_index_to_buf (_positions s))) as Hfull.
  { intros n. rewrite take_ge; [done|lia]. }
  destruct pl as [|[|n0] pl]; [flush_completes| |].
  - destruct pl as [|[|n1] pl]; [flush_completes| |].
    + destruct pl as [|[|n2] pl]; [flush_completes| |].
      * destruct pl as [|[|n3] pl]; [flush_completes..|].
        flush_fails_at 3%nat n3. right. eexists. apply (Hfull 0%nat).
      * flush_fails_at 2%nat n2. right. eexists. apply (Hfull 0%nat).
    + flush_fails_at 1%nat n1. right. by exists n1.
  - flush_fails_at 0%nat n0. by left.
Qed.

Lemma flush_result_not_assert (w : world) : (flush w).2 ≠ AssertFailed.
Proof.
  destruct (_needs_persistence (index w)) eqn:Hd.
  - destruct (flush_dirty w Hd) as (k & c & r & -> & _ & _ & [(-> & _)|(-> & _)]);
      done.
  - by rewrite flush_clean.
Qed.

Lemma flush_index (w : world) :
  _needs_persistence (index (flush w).1) = false
  ∧ _positions (index (flush w).1) = _positions (index w)
  ∧ _base (index (flush w).1) = _base (index w)
  ∧ _step (index (flush w).1) = _step (index w)
  ∧ _acc (index (flush w).1) = _acc (index w)
  ∧ _last_seen_offset (index (flush w).1) = _last_seen_offset (index w).
Proof.
  destruct (_needs_persistence (index w)) eqn:Hd.
  - by destruct (flush_dirty w Hd) as (k & c & r & -> & _).
  - by rewrite flush_clean.
Qed.

Lemma flush_world_ok (w : world) : world_ok w → world_ok (flush w).1.
Proof.
  intros [Hidx Hfile]. destruct (_needs_persistence (index w)) eqn:Hd.
  - destruct (flush_dirty w Hd) as (k & c & r & -> & _ & _ & Hr).
    split; [done|]. simpl.
    destruct Hr as [(_ & _ & _ & ->)|(_ & _ & [->|[n ->]])]; [|done|].
    + rewrite <- (take_ge (offset_index_to_buf _) (length (offset_index_to_buf
                                 (_positions (index w))))) by lia.
      by apply file_ok_encode.
    + by apply file_ok_encode.
  - by rewrite flush_clean.
Qed.

(** ** [maybe_track] *)

Lemma maybe_track_below_base (w : world) (o pos data_size : Z) :
  o < _base (index w) → maybe_track o pos data_size w = (w, AssertFailed).
Proof.
  intros Ho. unfold maybe_track. unfold_M.
  destruct (Z.leb_spec (_base (index w)) o); [lia|done].
Qed.

Lemma maybe_track_earlier (w : world) (o pos data_size : Z) :
  _base (index w) ≤ o → is_earlier_offset (index w) o = true →
  maybe_track o pos data_size w = (w, Ok tt).
Proof.
  intros Ho He. unfold maybe_track. unfold_M.
  destruct (Z.leb_spec (_base (index w)) o); [|lia].
  by rewrite He.
Qed.

(** The accepted call, as one update of the object. *)
Lemma maybe_track_accepted (w : world) (o pos data_size : Z) :
  _base (index w) ≤ o → is_earlier_offset (index w) o = false →
  let s := index w in
  let acc := size_add (_acc s) data_size in
  maybe_track o pos data_size w
  = (set_index
       (if _step s <=? acc
        then mk_index (_base s) (_step s) 0 true o
               (_positions s ++ [(relative_offset (_base s) o, cast_uint32 pos)])
        else mk_index (_base s) (_step s) acc (_needs_persistence s) o
               (_positions s)) w, Ok tt).
Proof.
  intros Ho He. unfold maybe_track. unfold_M.
  destruct (Z.leb_spec (_base (index w)) o); [|lia].
  rewrite He. by destruct (_step (index w) <=? _) eqn:Hstep.
Qed.

Lemma is_earlier_offset_false (s : segment_offset_index) (o : Z) :
  is_earlier_offset s o = false ↔
  ∀ back, last (_positions s) = Some back →
          back.1 ≤ relative_offset (_base s) o.
Proof.
  unfold is_earlier_offset. destruct (last (_positions s)) as [back|].
  - rewrite Z.ltb_ge. split; [by intros H ? [= <-]|by intros H; apply H].
  - done.
Qed.

Lemma maybe_track_world_ok (w : world) (o pos data_size : Z) :
  world_ok w → world_ok (maybe_track o pos data_size w).1.
Proof.
  intros [Hidx Hfile].
  destruct (Z.lt_ge_cases o (_base (index w))) as [Ho|Ho].
  { by rewrite maybe_track_below_base. }
  destruct (is_earlier_offset (index w) o) eqn:He.
  { by rewrite maybe_track_earlier. }
  rewrite maybe_track_accepted by done.
  split; [|done]. simpl.
  destruct (_ <=? _); simpl; [|done].
  apply entries_ok_snoc; [done|..].
  - split; simpl; [apply relative_offset_range|apply cast_uint32_range].
  - by apply is_earlier_offset_false.
Qed.

(** C3: a [maybe_track] call that passes the [vassert] and is not dropped
    as an earlier offset stores the tracked offset in [_last_seen_offset]
    and adds the payload size to [_acc] (a [size_t] addition).  When the sum
    reaches [_step], the pair of the 32-bit relative offset and the 32-bit
    byte position is appended, [_acc] is reset to 0 and the dirty flag is
    set; when the sum stays below [_step], nothing is appended, the sum is
    kept and the dirty flag keeps its value.  The file is not touched. *)
Theorem maybe_track_samples_by_step (w : world) (o pos data_size : Z) :
  _base (index w) ≤ o →
  is_earlier_offset (index w) o = false →
  let s := index w in
  let w' := (maybe_track o pos data_size w).1 in
  let s' := index w' in
  let acc := size_add (_acc s) data_size in
  (maybe_track o pos data_size w).2 = Ok tt
  ∧ _last_seen_offset s' = o
  ∧ _base s' = _base s ∧ _step s' = _step s
  ∧ contents w' = contents w ∧ trace w' = trace w ∧ plan w' = plan w
  ∧ (_step s ≤ acc →
       _positions s'
       = _positions s ++ [(relative_offset (_base s) o, cast_uint32 pos)]
       ∧ _acc s' = 0
       ∧ _needs_persistence s' = true)
  ∧ (acc < _step s →
       _positions s' = _positions s
       ∧ _acc s' = acc
       ∧ _needs_persistence s' = _needs_persistence s).
Proof.
  intros Ho He. rewrite maybe_track_accepted by done. simpl.
  destruct (Z.leb_spec (_step (index w))
              (size_add (_acc (index w)) data_size)) as [Hstep|Hstep]; simpl.
  - repeat split; try done; lia.
  - repeat split; try done; lia.
Qed.

(** C4: with a non-empty entry list whose last relative offset lies
    strictly above the candidate's, [maybe_track] returns at once: entry
    list, accumulator, last seen offset, dirty flag and file are as
    before. *)
Theorem maybe_track_drops_earlier (w : world) (o pos data_size : Z)
    (back : entry) :
  _base (index w) ≤ o →
  last (_positions (index w)) = Some back →
  relative_offset (_base (index w)) o < back.1 →
  maybe_track o pos data_size w = (w, Ok tt).
Proof.
  intros Ho Hback Hlt. apply maybe_track_earlier; [done|].
  unfold is_earlier_offset. rewrite Hback. by apply Z.ltb_lt.
Qed.

(** ** [lower_bound_pair] *)

Lemma lower_bound_pair_below_base (w : world) (o : Z) :
  o < _base (index w) → lower_bound_pair o w = (w, AssertFailed).
Proof.
  intros Ho. unfold lower_bound_pair. unfold_M.
  destruct (Z.leb_spec (_base (index w)) o); [lia|done].
Qed.

Lemma lower_bound_pair_sorted (w : world) (o : Z) :
  _base (index w) ≤ o →
  sorted_by_offset (_positions (index w)) →
  let s := index w in
  let i := relative_offset (_base s) o in
  ∃ r : option (Z * Z),
    lower_bound_pair o w = (w, Ok r)
    ∧ match r with
      | Some found =>
          ∃ p, p ∈ _positions s ∧ found = logical_pair s p ∧ p.1 ≤ i
               ∧ ∀ q, q ∈ _positions s → q.1 ≤ i → q.1 ≤ p.1
      | None => ∀ q, q ∈ _positions s → i < q.1
      end.
Proof.
  intros Ho Hs. cbv zeta.
  unfold lower_bound_pair. unfold_M.
  destruct (Z.leb_spec (_base (index w)) o); [|lia].
  set (i := relative_offset (_base (index w)) o).
  set (v := _positions (index w)) in *.
  destruct (std_lower_bound_sorted v i Hs) as (Hk & Hlo & Hhi).
  set (k := std_lower_bound v i) in *.
  destruct (vector_empty v) eqn:Hv.
  { exists None. split; [done|]. destruct v; [|done].
    intros q Hq. by apply elem_of_nil in Hq. }
  assert (0 < length v)%nat as Hlen by (destruct v; [done|simpl; lia]).
  assert (∀ q, q ∈ v → ∃ j, (j < length v)%nat ∧ v !! j = Some q) as Hidx.
  { intros q Hq. apply list_elem_of_lookup in Hq as [j Hj].
    exists j. split; [by eapply lookup_lt_Some|done]. }
  destruct (Nat.eqb_spec k (length v)) as [Hend|Hend].
  - (* past the end: the last entry *)
    destruct (lookup_lt_is_Some_2 v (pred k)) as [p Hp]; [lia|].
    rewrite Hp.
    pose proof (Hlo (pred k) p ltac:(lia) Hp) as Hpi.
    destruct (Z.leb_spec p.1 i); [|lia].
    exists (Some (logical_pair (index w) p)). split; [done|].
    exists p. split; [by eapply list_elem_of_lookup_2|].
    split; [done|]. split; [lia|].
    intros q Hq _. destruct (Hidx q Hq) as (j & Hj & Hjq).
    apply (sorted_by_offset_lookup v j (pred k) q p Hs); [lia|done..].
  - destruct (lookup_lt_is_Some_2 v k) as [p Hp]; [lia|].
    rewrite Hp.
    pose proof (Hhi k p ltac:(lia) Hp) as Hpi.
    destruct (Z.leb_spec p.1 i).
    + (* exact hit *)
      exists (Some (logical_pair (index w) p)). split; [done|].
      exists p. split; [by eapply list_elem_of_lookup_2|].
      split; [done|]. split; [lia|]. intros q Hq Hqi. lia.
    + destruct (Nat.ltb_spec 0 k) as [Hpos|Hzero].
      * (* one step back *)
        destruct (lookup_lt_is_Some_2 v (pred k)) as [q Hq]; [lia|].
        rewrite Hq.
        pose proof (Hlo (pred k) q ltac:(lia) Hq) as Hqi.
        destruct (Z.leb_spec q.1 i); [|lia].
        exists (Some (logical_pair (index w) q)). split; [done|].
        exists q. split; [by eapply list_elem_of_lookup_2|].
        split; [done|]. split; [lia|].
        intros r Hr Hri. destruct (Hidx r Hr) as (j & Hj & Hjr).
        destruct (decide (j < k)%nat) as [Hjk|Hjk].
        -- apply (sorted_by_offset_lookup v j (pred k) r q Hs); [lia|done..].
        -- pose proof (sorted_by_offset_lookup v k j p r Hs ltac:(lia) Hp Hjr).
           lia.
      * (* nothing at or below the target *)
        rewrite Hp. destruct (Z.leb_spec p.1 i); [lia|].
        exists None. split; [done|].
        intros r Hr. destruct (Hidx r Hr) as (j & Hj & Hjr).
        pose proof (sorted_by_offset_lookup v k j p r Hs ltac:(lia) Hp Hjr).
        lia.
Qed.

Lemma lower_bound_pair_world (w : world) (o : Z) :
  (lower_bound_pair o w).1 = w.
Proof.
  unfold lower_bound_pair. unfold_M.
  destruct (_ <=? _); [|done].
  destruct (vector_empty _); [done|].
  repeat (match goal with
          | |- context [match ?l !! ?i with _ => _ end] => destruct (l !! i)
          | |- context [if ?b then _ else _] => destruct b
          end; try done).
Qed.

Lemma lower_bound_pair_returns (w : world) (o : Z) :
  _base (index w) ≤ o → ∃ r, (lower_bound_pair o w).2 = Ok r.
Proof.
  intros Ho. unfold lower_bound_pair. unfold_M.
  destruct (Z.leb_spec (_base (index w)) o); [|lia].
  destruct (vector_empty _); [by eexists|].
  repeat (match goal with
          | |- context [match ?l !! ?i with _ => _ end] => destruct (l !! i)
          | |- context [if ?b then _ else _] => destruct b
          end; try by eexists).
Qed.

(** C1, as the code has it: on a well-formed index (entries sorted and
    32 bits wide) and for a target [T] at or above the base whose relative
    offset [T - base] fits the 32-bit format, [lower_bound_pair] changes
    nothing and returns the stored entry
    with the greatest offset at or below [T], as a logical offset with its
    byte position, whenever some stored entry lies at or below [T];
    otherwise it returns nothing, as it does on an empty list and for a
    target below the first stored entry. *)
Theorem lower_bound_pair_greatest_at_or_below (w : world) (T : Z) :
  entries_ok (_positions (index w)) →
  is_int64 (_base (index w)) → is_int64 T →
  _base (index w) ≤ T →
  is_uint32 (T - _base (index w)) →
  let s := index w in
  (lower_bound_pair T w).1 = w
  ∧ ((∃ q, q ∈ _positions s ∧ _base s + q.1 ≤ T) →
     ∃ p, p ∈ _positions s
          ∧ (lower_bound_pair T w).2 = Ok (Some (_base s + p.1, p.2))
          ∧ _base s + p.1 ≤ T
          ∧ ∀ q, q ∈ _positions s → _base s + q.1 ≤ T →
                 _base s + q.1 ≤ _base s + p.1)
  ∧ ((∀ q, q ∈ _positions s → T < _base s + q.1) →
     (lower_bound_pair T w).2 = Ok None)
  ∧ (_positions s = [] → (lower_bound_pair T w).2 = Ok None)
  ∧ (∀ first, head (_positions s) = Some first → T < _base s + first.1 →
              (lower_bound_pair T w).2 = Ok None).
Proof.
  intros [Hs Hfit] Hbase HT Hge Hrel. cbv zeta.
  destruct (lower_bound_pair_sorted w T Hge Hs) as (r & Heq & Hr).
  cbv zeta in Hr. set (s := index w) in *.
  rewrite (relative_offset_id (_base s) T Hrel) in Hr.
  rewrite Heq. cbn [fst snd].
  assert (∀ p, p ∈ _positions s → p.1 ≤ T - _base s →
               logical_pair s p = (_base s + p.1, p.2)) as Hlogical.
  { intros p Hp Hle. unfold logical_pair, offset_add.
    rewrite Forall_forall in Hfit. destruct (Hfit p Hp) as [[Hp0 _] _].
    rewrite wrap_int64_id; [done|].
    unfold is_int64 in *. lia. }
  assert ((∀ q, q ∈ _positions s → T < _base s + q.1) → r = None) as Hnone.
  { intros Hall. destruct r as [found|]; [|done].
    destruct Hr as (p & Hp & _ & Hle & _). specialize (Hall p Hp). lia. }
  split; [done|]. split; [|split; [|split]].
  - intros (q & Hq & Hqle). destruct r as [found|].
    + destruct Hr as (p & Hp & -> & Hle & Hmax).
      exists p. split; [done|].
      rewrite (Hlogical p Hp Hle). split; [done|]. split; [lia|].
      intros q' Hq' Hq'le. specialize (Hmax q' Hq'). lia.
    + specialize (Hr q Hq). lia.
  - intros Hall. by rewrite Hnone.
  - intros Hnil. rewrite Hnone; [done|]. rewrite Hnil.
    intros q Hq. by apply elem_of_nil in Hq.
  - intros first Hfirst Hlt. rewrite Hnone; [done|].
    intros q Hq. apply list_elem_of_lookup in Hq as [j Hj].
    rewrite head_lookup in Hfirst.
    pose proof (sorted_by_offset_lookup (_positions s) 0 j first q Hs
                  ltac:(lia) Hfirst Hj).
    lia.
Qed.

(** C1, as stated, fails beyond the 32-bit range: line 71 reduces the
    target to a [uint32_t] relative offset, so with base 100 the lookup of
    [100 + 2^32 + 500] searches for 500 and answers with the entry at
    logical offset 100, although the entry at logical offset 2600 is
    stored and lies at or below the target. *)
Lemma lookup_beyond_32_bits_misses_greatest :
  let T := 100 + 2 ^ 32 + 500 in
  (2500, 1300) ∈ _positions (index example_world)
  ∧ 100 + 2500 ≤ T
  ∧ lower_bound_pair T example_world = (example_world, Ok (Some (100, 0))).
Proof.
  split; [|split].
  - right. right. left.
  - simpl. lia.
  - reflexivity.
Qed.

(** ** [truncate] *)

Lemma truncate_below_base (w : world) (o : Z) :
  o < _base (index w) → truncate o w = (w, AssertFailed).
Proof.
  intros Ho. unfold truncate. unfold_M.
  destruct (Z.leb_spec (_base (index w)) o); [lia|done].
Qed.

(** The list surgery of [truncate], as one update of the object. *)
Lemma truncate_positions_eq (w : world) (o : Z) :
  let s := index w in
  let k := std_lower_bound (_positions s) (relative_offset (_base s) o) in
  truncate_positions o w
  = (set_index
       (if (k =? length (_positions s))%nat
        then mk_index (_base s) (_step s) (_acc s) (_needs_persistence s) o
               (_positions s)
        else mk_index (_base s) (_step s) (_acc s) true o
               (take k (_positions s))) w, Ok tt).
Proof. unfold truncate_positions. unfold_M. by destruct (_ =? _)%nat. Qed.

Lemma truncate_eq (w : world) (o : Z) :
  _base (index w) ≤ o → truncate o w = flush (truncate_positions o w).1.
Proof.
  intros Ho. unfold truncate.
  unfold mbind at 1 2 3, M_bind, get_index, vassert.
  destruct (Z.leb_spec (_base (index w)) o); [|lia].
  by rewrite truncate_positions_eq.
Qed.

Lemma truncate_world_ok (w : world) (o : Z) :
  world_ok w → world_ok (truncate o w).1.
Proof.
  intros Hw. destruct (Z.lt_ge_cases o (_base (index w))) as [Ho|Ho].
  { by rewrite truncate_below_base. }
  rewrite truncate_eq by done. apply flush_world_ok.
  rewrite truncate_positions_eq. destruct Hw as [Hidx Hfile].
  split; [|done]. simpl. destruct (_ =? _)%nat; simpl; [done|].
  by apply entries_ok_take.
Qed.

(** C5, as the code has it: on a sorted entry list and for [X] at or
    above the base whose relative offset [X - base] fits the 32-bit
    format, [truncate X] splits
    the list into the entries below [X - base], which are kept, and the
    entries at or above it, which are removed.  It stores [X] in
    [_last_seen_offset] and sets the dirty flag when at least one entry was
    removed, leaving the flag as it was otherwise; the index in that state
    is handed to [flush], which writes a dirty index out and clears the
    flag, and does not touch the entries or the last seen offset: when
    [truncate] returns the flag is clear.  No entry that remains lies at
    or above [X - base]. *)
Theorem truncate_removes_from_target (w : world) (X : Z) :
  _base (index w) ≤ X →
  is_uint32 (X - _base (index w)) →
  sorted_by_offset (_positions (index w)) →
  let s := index w in
  let i := X - _base s in
  ∃ (kept removed : list entry),
    _positions s = kept ++ removed
    ∧ Forall (λ p, p.1 < i) kept
    ∧ Forall (λ p, i ≤ p.1) removed
    ∧ let dirty := match removed with
                   | [] => _needs_persistence s
                   | _ :: _ => true
                   end in
      let w1 := set_index (mk_index (_base s) (_step s) (_acc s) dirty X kept)
                  w in
      truncate_positions X w = (w1, Ok tt)
      ∧ truncate X w = flush w1
      ∧ _positions (index (truncate X w).1) = kept
      ∧ _last_seen_offset (index (truncate X w).1) = X
      ∧ Forall (λ p, ¬ i ≤ p.1) (_positions (index (truncate X w).1))
      ∧ _needs_persistence (index (truncate X w).1) = false.
Proof.
  intros Hge Hrel Hs. cbv zeta.
  pose proof (truncate_eq w X Hge) as Htr.
  pose proof (truncate_positions_eq w X) as Hpos. cbv zeta in Hpos.
  rewrite (relative_offset_id _ _ Hrel) in Hpos.
  set (s := index w) in *. set (i := X - _base s) in *.
  destruct (std_lower_bound_sorted (_positions s) i Hs) as (Hk & Hlo & Hhi).
  set (k := std_lower_bound (_positions s) i) in *.
  exists (take k (_positions s)), (drop k (_positions s)).
  assert (Forall (λ p : entry, p.1 < i) (take k (_positions s))) as Hkept.
  { apply Forall_lookup. intros j p Hj.
    apply lookup_take_Some in Hj as [Hj Hjk]. by apply (Hlo j). }
  split; [by rewrite take_drop|]. split; [done|]. split.
  { apply Forall_lookup. intros j p Hj. rewrite lookup_drop in Hj.
    apply (Hhi (k + j)%nat); [lia|done]. }
  assert (truncate_positions X w
          = (set_index
               (mk_index (_base s) (_step s) (_acc s)
                  match drop k (_positions s) with
                  | [] => _needs_persistence s
                  | _ :: _ => true
                  end X (take k (_positions s))) w, Ok tt)) as Hmid.
  { rewrite Hpos. destruct (Nat.eqb_spec k (length (_positions s))) as [He|He].
    - rewrite He, drop_all, firstn_all. done.
    - destruct (drop k (_positions s)) eqn:Hdrop; [|done].
      apply (f_equal length) in Hdrop. rewrite length_drop in Hdrop.
      simpl in Hdrop. lia. }
  rewrite Htr, Hmid. cbn [fst].
  split; [done|]. split; [done|].
  destruct (flush_index (set_index
               (mk_index (_base s) (_step s) (_acc s)
                  match drop k (_positions s) with
                  | [] => _needs_persistence s
                  | _ :: _ => true
                  end X (take k (_positions s))) w))
    as (Hclean & -> & _ & _ & _ & ->).
  split; [by simpl|]. split; [by simpl|]. split; [|exact Hclean].
  simpl. eapply Forall_impl; [exact Hkept|]. simpl. intros p Hp. lia.
Qed.

(** C5, as stated, fails beyond the 32-bit range: line 104 reduces the
    target to a [uint32_t] relative offset, so with base 100
    [truncate (100 + 2^32 + 500)] erases from relative offset 500 on and
    keeps only the first entry, although no stored relative offset is at
    or above [X - base]. *)
Lemma truncate_beyond_32_bits_removes_lower_entries :
  let X := 100 + 2 ^ 32 + 500 in
  Forall (λ p, p.1 < X - 100) (_positions (index example_world))
  ∧ _positions (index (truncate X example_world).1) = [(0, 0)].
Proof.
  split; [|reflexivity].
  repeat constructor.
Qed.

(** C10, as the code has it: when the relative target [X - base] (at or
    above 0 and within the 32-bit format) lies strictly above every stored
    relative offset, the list surgery of [truncate X] only stores [X] in
    [_last_seen_offset]: entry list and dirty flag reach the internal
    [flush] as they were.  If the index was not dirty, that [flush] issues
    no file operation: file contents, log and plan are those of before.
    An index that was dirty already is written out by it; in both cases
    the flag is clear when [truncate] returns. *)
Theorem truncate_beyond_last_entry (w : world) (X : Z) :
  _base (index w) ≤ X →
  is_uint32 (X - _base (index w)) →
  Forall (λ p, p.1 < X - _base (index w)) (_positions (index w)) →
  let s := index w in
  let w1 := set_index
              (mk_index (_base s) (_step s) (_acc s) (_needs_persistence s) X
                 (_positions s)) w in
  truncate_positions X w = (w1, Ok tt)
  ∧ truncate X w = flush w1
  ∧ _positions (index (truncate X w).1) = _positions s
  ∧ _last_seen_offset (index (truncate X w).1) = X
  ∧ (_needs_persistence s = false → truncate X w = (w1, Ok tt))
  ∧ _needs_persistence (index (truncate X w).1) = false.
Proof.
  intros Hge Hrel Hall. cbv zeta.
  pose proof (truncate_eq w X Hge) as Htr.
  pose proof (truncate_positions_eq w X) as Hpos. cbv zeta in Hpos.
  rewrite (relative_offset_id _ _ Hrel) in Hpos.
  rewrite (std_lower_bound_all_below _ _ Hall), Nat.eqb_refl in Hpos.
  rewrite Htr, Hpos. cbn [fst].
  split; [done|]. split; [done|].
  destruct (flush_index (set_index
              (mk_index (_base (index w)) (_step (index w)) (_acc (index w))
                 (_needs_persistence (index w)) X (_positions (index w))) w))
    as (Hcleared & -> & _ & _ & _ & ->).
  split; [by simpl|]. split; [by simpl|]. split; [|exact Hcleared].
  intros Hclean. by apply flush_clean.
Qed.

(** C10, as stated, fails beyond the 32-bit range: with base 100
    the relative target of [truncate (100 + 2^32)] is [2^32], strictly
    above every stored relative offset, yet line 104 reduces it to 0: the
    whole entry list is erased and the index, which was not dirty, is
    written to the file. *)
Lemma truncate_at_2_pow_32_erases_everything :
  let X := 100 + 2 ^ 32 in
  Forall (λ p, p.1 < X - 100) (_positions (index example_world))
  ∧ _needs_persistence (index example_world) = false
  ∧ _positions (index (truncate X example_world).1) = []
  ∧ trace (truncate X example_world).1
    = flush_events (mk_index 100 4096 0 true X []).
Proof.
  split; [|split; [|split]]; try reflexivity.
  repeat constructor.
Qed.

(** C9: with an offset strictly below the base, [maybe_track],
    [lower_bound_pair] and [truncate] die in their [vassert] with the
    object and the file untouched and nothing returned; with an offset at
    or above the base none of them ends in a failed assertion. *)
Theorem offset_below_base_is_fatal (w : world) (o pos data_size : Z) :
  (o < _base (index w) →
     maybe_track o pos data_size w = (w, AssertFailed)
     ∧ lower_bound_pair o w = (w, AssertFailed)
     ∧ truncate o w = (w, AssertFailed))
  ∧ (_base (index w) ≤ o →
     (maybe_track o pos data_size w).2 = Ok tt
     ∧ (∃ r, (lower_bound_pair o w).2 = Ok r)
     ∧ (truncate o w).2 ≠ AssertFailed).
Proof.
  split.
  - intros Ho. split; [by apply maybe_track_below_base|].
    split; [by apply lower_bound_pair_below_base|by apply truncate_below_base].
  - intros Ho. split; [|split].
    + destruct (is_earlier_offset (index w) o) eqn:He.
      * by rewrite maybe_track_earlier.
      * by rewrite maybe_track_accepted.
    + by apply lower_bound_pair_returns.
    + rewrite truncate_eq by done. apply flush_result_not_assert.
Qed.

(** ** [materialize_index] *)

(** The three ways a load can end: a failed read, an empty buffer, a
    decoded buffer.  The file keeps its contents in all of them. *)
Lemma materialize_index_cases (w : world) :
  ∃ (tr : list io_event) (pl : list io_outcome),
    (materialize_index w = (mk_world (index w) (contents w) tr pl, IoFailed)
     ∧ ¬ Forall succeeds (take 2 (plan w)))
    ∨ (contents w = []
       ∧ materialize_index w = (mk_world (index w) (contents w) tr pl, Ok false)
       ∧ pl = drop 2 (plan w))
    ∨ (contents w ≠ []
       ∧ materialize_index w
         = (mk_world
              (set_positions (offset_index_from_buf (contents w)) (index w))
              (contents w) tr pl, Ok true)
       ∧ pl = drop 2 (plan w)).
Proof.
  destruct w as [s c tr pl]. unfold materialize_index, file_call. unfold_M.
  assert (∀ o : io_outcome, ¬ succeeds o → ∀ l l',
            ¬ Forall succeeds (l ++ o :: l')) as Hfail.
  { intros o Ho l l' Hall. apply Forall_app in Hall as [_ Hall].
    by apply Forall_cons in Hall as [? _]. }
  destruct pl as [|[|n0] pl]; simpl.
  - rewrite Nat2Z.id, firstn_all. eexists _, _. right.
    destruct c; [left|right]; done.
  - destruct pl as [|[|n1] pl]; simpl; rewrite ?Nat2Z.id, ?firstn_all.
    + eexists _, _. right. destruct c; [left|right]; done.
    + eexists _, _. right. destruct c; [left|right]; done.
    + eexists _, _. left. split; [done|].
      destruct pl; apply (Hfail (io_error n1) ltac:(done) [io_ok]).
  - eexists _, _. left. split; [done|].
    destruct pl; apply (Hfail (io_error n0) ltac:(done) []).
Qed.

Lemma materialize_index_world_ok (w : world) :
  world_ok w → world_ok (materialize_index w).1.
Proof.
  intros [Hidx Hfile].
  destruct (materialize_index_cases w)
    as (tr & pl & [(-> & _)|[(_ & -> & _)|(_ & -> & _)]]); try done.
  split; [|done]. simpl. by apply file_ok_decode.
Qed.

(** ** Histories *)

Lemma perform_world_ok (op : operation) (w : world) :
  world_ok w → world_ok (perform op w).1.
Proof.
  intros Hw. destruct op as [o pos data_size|o|o| |]; simpl.
  - by apply maybe_track_world_ok.
  - unfold mbind, M_bind.
    pose proof (lower_bound_pair_world w o) as Hpure.
    destruct (lower_bound_pair o w) as [w' [r| |]]; simpl in *; by subst.
  - by apply truncate_world_ok.
  - unfold mbind, M_bind.
    pose proof (materialize_index_world_ok w Hw) as Hload.
    by destruct (materialize_index w) as [w' [r| |]].
  - by apply flush_world_ok.
Qed.

Lemma run_world_ok (ops : list operation) (w : world) :
  world_ok w → world_ok (run ops w).
Proof.
  revert w. induction ops as [|op ops IH]; intros w Hw; [done|].
  simpl. pose proof (perform_world_ok op w Hw) as Hstep.
  destruct (perform op w) as [w' [[]| |]]; simpl in *; auto.
Qed.

Lemma fresh_world_ok (base step last_seen : Z) (faults : list io_outcome) :
  world_ok (fresh_world base step last_seen faults).
Proof. split; [apply entries_ok_nil|apply file_ok_nil]. Qed.

(** C2, as the code has it: after every history of track, lookup,
    truncate, load and flush calls on a newly constructed index over an
    empty file, whatever file operations fail, the entry list is sorted
    ascending by relative offset, equal neighbours allowed, and holds
    32-bit values only. *)
Theorem entries_stay_sorted (base step last_seen : Z)
    (faults : list io_outcome) (ops : list operation) :
  let w := run ops (fresh_world base step last_seen faults) in
  sorted_by_offset (_positions (index w))
  ∧ Forall entry_fits (_positions (index w)).
Proof.
  apply (run_world_ok ops (fresh_world base step last_seen faults)).
  apply fresh_world_ok.
Qed.

(** C2, as stated, fails: the sampler ignores only offsets strictly below
    the last stored one, so tracking the base offset twice with payloads of
    [step] bytes stores relative offset 0 twice. *)
Lemma same_offset_is_stored_twice :
  let w := run [op_track 100 0 4096; op_track 100 8 4096]
               (fresh_world 100 4096 0 []) in
  _positions (index w) = [(0, 0); (0, 8)]
  ∧ ¬ duplicate_free_by_offset (_positions (index w)).
Proof.
  split; [reflexivity|].
  intros Hdup. change (NoDup [0; 0]) in Hdup.
  apply NoDup_cons in Hdup as [Hin _]. apply Hin. by left.
Qed.

(** C6: a [flush] of an index that is not dirty returns at once with the
    object, the file and its log as they were; and since every [flush]
    leaves the index not dirty, a second [flush] right after any first one
    issues no file operation. *)
Theorem flush_twice_writes_once (w : world) :
  (_needs_persistence (index w) = false → flush w = (w, Ok tt))
  ∧ flush (flush w).1 = ((flush w).1, Ok tt)
  ∧ trace (flush (flush w).1).1 = trace (flush w).1.
Proof.
  split; [apply flush_clean|].
  assert (flush (flush w).1 = ((flush w).1, Ok tt)) as H2.
  { apply flush_clean. apply flush_index. }
  split; [done|]. by rewrite H2.
Qed.

(** C7: a [flush] of a dirty index logs every file operation with the
    dirty flag already cleared, starting with the truncation of the file.
    Whichever of the four operations (truncate, write, flush, close of the
    stream) fails, the completion is a failed one, the later operations
    are not issued, the dirty flag stays cleared and the entry list is the
    one of before.  When none fails, the file holds the encoded entries. *)
Theorem flush_clears_dirty_before_io (w : world) :
  _needs_persistence (index w) = true →
  let w' := (flush w).1 in
  _needs_persistence (index w') = false
  ∧ _positions (index w') = _positions (index w)
  ∧ (∃ evs, trace w' = trace w ++ mk_event (io_truncate 0) false :: evs
            ∧ Forall (λ e, ev_needs_persistence e = false) evs)
  ∧ (∀ k n, (k < 4)%nat → Forall succeeds (take k (plan w)) →
            plan w !! k = Some (io_error n) →
            (flush w).2 = IoFailed
            ∧ trace w' = trace w ++ take (S k) (flush_events (index w)))
  ∧ (Forall succeeds (take 4 (plan w)) →
       (flush w).2 = Ok tt
       ∧ trace w' = trace w ++ flush_events (index w)
       ∧ contents w' = offset_index_to_buf (_positions (index w))).
Proof.
  intros Hd. cbv zeta.
  destruct (flush_dirty w Hd) as (k & c & r & Heq & Hk & Hok & Hr).
  rewrite Heq. cbn [fst snd index trace contents].
  assert (∀ j n, plan w !! j = Some (io_error n) →
                 Forall succeeds (take (S j) (plan w)) → False) as Hbad.
  { intros j n Hj Hall. rewrite Forall_lookup in Hall.
    specialize (Hall j (io_error n)). rewrite lookup_take_lt in Hall by lia.
    by specialize (Hall Hj). }
  split; [done|]. split; [done|]. split; [|split].
  - exists (take k (drop 1 (flush_events (index w)))). split; [done|].
    apply Forall_take. unfold flush_events. simpl. by repeat constructor.
  - intros j n Hj Hpre Hjn.
    destruct Hr as [(-> & -> & Hall & _)|(-> & (m & Hkm) & _)].
    + exfalso. apply (Hbad j n Hjn).
      apply (Forall_take_le _ _ (S j) 4); [lia|done].
    + split; [done|].
      destruct (Nat.lt_trichotomy j k) as [Hlt|[->|Hgt]]; [|done|].
      * exfalso. apply (Hbad j n Hjn).
        apply (Forall_take_le _ _ (S j) k); [lia|done].
      * exfalso. apply (Hbad k m Hkm).
        apply (Forall_take_le _ _ (S k) j); [lia|done].
  - intros Hall. destruct Hr as [(-> & -> & _ & ->)|(-> & (m & Hkm) & _)].
    + done.
    + exfalso. apply (Hbad k m Hkm).
      apply (Forall_take_le _ _ (S k) 4); [lia|done].
Qed.

(** C8: for entries of 32-bit values, decoding the encoded list gives the
    list back, in order; the buffer has 8 bytes per entry, so the empty
    list encodes to the empty buffer.  On an empty file
    [materialize_index] leaves the whole object as it was (an empty entry
    list stays empty, the dirty flag keeps its value) and returns false
    when both reads complete.  A completed [flush] of a dirty index
    followed by a completed [materialize_index] restores the entry
    list. *)
Theorem offset_index_buf_round_trip (l : list entry) :
  Forall entry_fits l →
  offset_index_from_buf (offset_index_to_buf l) = l
  ∧ length (offset_index_to_buf l) = (8 * length l)%nat
  ∧ offset_index_to_buf [] = []
  ∧ (∀ w, contents w = [] →
       index (materialize_index w).1 = index w
       ∧ contents (materialize_index w).1 = []
       ∧ (materialize_index w).2 ≠ Ok true
       ∧ (Forall succeeds (take 2 (plan w)) →
            (materialize_index w).2 = Ok false))
  ∧ (∀ w, _positions (index w) = l →
       _needs_persistence (index w) = true →
       Forall succeeds (take 6 (plan w)) →
       let w1 := (flush w).1 in
       (flush w).2 = Ok tt
       ∧ contents w1 = offset_index_to_buf l
       ∧ _positions (index (materialize_index w1).1) = l
       ∧ (materialize_index w1).2 = Ok (negb (vector_empty l))).
Proof.
  intros Hl.
  split; [by apply offset_index_from_to_buf|].
  split; [apply offset_index_to_buf_length|].
  split; [done|]. split.
  - intros w Hc.
    destruct (materialize_index_cases w)
      as (tr & pl & [(-> & Hfail)|[(_ & -> & _)|(Hne & _)]]); simpl; try done.
  - intros w Hpos Hd Hplan. cbv zeta.
    destruct (flush_dirty w Hd) as (k & c & r & Heq & Hk & Hok & Hr).
    rewrite Heq. cbn [fst snd].
    destruct Hr as [(-> & -> & _ & ->)|(-> & (n & Hkn) & _)].
    2:{ exfalso. rewrite Forall_lookup in Hplan.
        specialize (Hplan k (io_error n)).
        rewrite lookup_take_lt in Hplan by lia. by specialize (Hplan Hkn). }
    rewrite Hpos. split; [done|]. split; [done|].
    match goal with |- context [materialize_index ?x] => set (w1 := x) end.
    assert (Forall succeeds (take 2 (plan w1))) as Hplan1.
    { subst w1. simpl. rewrite take_drop_commute. by apply Forall_drop. }
    destruct (materialize_index_cases w1)
      as (tr & pl & [(_ & Hfail)|[(Hnil & -> & _)|(Hne & -> & _)]]);
      [done| |]; subst w1; simpl in *.
    + apply (f_equal length) in Hnil.
      rewrite offset_index_to_buf_length in Hnil.
      destruct l; [done|simpl in Hnil; lia].
    + rewrite offset_index_from_to_buf by done. split; [done|].
      destruct l; [done|done].
Qed.

(** ** The theorems at concrete indexes *)

(** The lookups of the specification's example. *)
Example lookup_between_entries :
  lower_bound_pair (100 + 1500) example_world
  = (example_world, Ok (Some (1100, 512))).
Proof. reflexivity. Qed.

Example lookup_before_second_entry :
  lower_bound_pair (100 + 500) example_world
  = (example_world, Ok (Some (100, 0))).
Proof. reflexivity. Qed.

Example lookup_below_base :
  lower_bound_pair 99 example_world = (example_world, AssertFailed).
Proof. reflexivity. Qed.

Example encode_one_entry :
  offset_index_to_buf [(1000, 512)] = [232; 3; 0; 0; 0; 2; 0; 0].
Proof. reflexivity. Qed.

Example truncate_rewrites_file :
  (truncate 1100 example_world).1
  = mk_world (mk_index 100 4096 0 false 1100 [(0, 0)])
      [0; 0; 0; 0; 0; 0; 0; 0]
      (flush_events (mk_index 100 4096 0 true 1100 [(0, 0)])) [].
Proof. reflexivity. Qed.

Lemma lower_bound_pair_greatest_at_or_below_witness :
  let w := example_world in
  let s := index w in
  (lower_bound_pair 1600 w).1 = w
  ∧ ((∃ q, q ∈ _positions s ∧ _base s + q.1 ≤ 1600) →
     ∃ p, p ∈ _positions s
          ∧ (lower_bound_pair 1600 w).2 = Ok (Some (_base s + p.1, p.2))
          ∧ _base s + p.1 ≤ 1600
          ∧ ∀ q, q ∈ _positions s → _base s + q.1 ≤ 1600 →
                 _base s + q.1 ≤ _base s + p.1)
  ∧ ((∀ q, q ∈ _positions s → 1600 < _base s + q.1) →
     (lower_bound_pair 1600 w).2 = Ok None)
  ∧ (_positions s = [] → (lower_bound_pair 1600 w).2 = Ok None)
  ∧ (∀ first, head (_positions s) = Some first → 1600 < _base s + first.1 →
              (lower_bound_pair 1600 w).2 = Ok None).
Proof.
  apply (lower_bound_pair_greatest_at_or_below example_world 1600).
  - split; concrete.
  - concrete.
  - concrete.
  - simpl. lia.
  - concrete.
Defined.

Lemma maybe_track_samples_by_step_witness :
  let w := fresh_world 100 4096 0 [] in
  let w' := (maybe_track 100 0 4096 w).1 in
  (maybe_track 100 0 4096 w).2 = Ok tt
  ∧ _last_seen_offset (index w') = 100
  ∧ _positions (index w') = [(0, 0)]
  ∧ _acc (index w') = 0
  ∧ _needs_persistence (index w') = true.
Proof.
  destruct (maybe_track_samples_by_step (fresh_world 100 4096 0 []) 100 0 4096)
    as (Hr & Hlast & _ & _ & _ & _ & _ & Hsample & _).
  - simpl. lia.
  - reflexivity.
  - destruct Hsample as (Hpos & Hacc & Hdirty); [vm_compute; congruence|].
    repeat split; assumption.
Defined.

Lemma maybe_track_drops_earlier_witness :
  maybe_track 150 700 5000 example_world = (example_world, Ok tt).
Proof.
  apply (maybe_track_drops_earlier example_world 150 700 5000 (2500, 1300)).
  - simpl. lia.
  - reflexivity.
  - vm_compute. reflexivity.
Defined.

Lemma truncate_removes_from_target_witness :
  let w := example_world in
  let s := index w in
  let i := 1100 - _base s in
  ∃ (kept removed : list entry),
    _positions s = kept ++ removed
    ∧ Forall (λ p, p.1 < i) kept
    ∧ Forall (λ p, i ≤ p.1) removed
    ∧ let dirty := match removed with
                   | [] => _needs_persistence s
                   | _ :: _ => true
                   end in
      let w1 := set_index (mk_index (_base s) (_step s) (_acc s) dirty 1100 kept)
                  w in
      truncate_positions 1100 w = (w1, Ok tt)
      ∧ truncate 1100 w = flush w1
      ∧ _positions (index (truncate 1100 w).1) = kept
      ∧ _last_seen_offset (index (truncate 1100 w).1) = 1100
      ∧ Forall (λ p, ¬ i ≤ p.1) (_positions (index (truncate 1100 w).1))
      ∧ _needs_persistence (index (truncate 1100 w).1) = false.
Proof.
  apply (truncate_removes_from_target example_world 1100).
  - simpl. lia.
  - concrete.
  - concrete.
Defined.

Lemma flush_twice_writes_once_witness :
  flush example_world = (example_world, Ok tt)
  ∧ flush (flush (dirty_example_world [])).1
    = ((flush (dirty_example_world [])).1, Ok tt).
Proof.
  split.
  - apply (proj1 (flush_twice_writes_once example_world)). reflexivity.
  - apply (proj2 (flush_twice_writes_once (dirty_example_world []))).
Defined.

Lemma flush_clears_dirty_before_io_witness :
  let w := dirty_example_world [io_ok; io_error 5] in
  let w' := (flush w).1 in
  _needs_persistence (index w') = false
  ∧ _positions (index w') = example_entries
  ∧ (flush w).2 = IoFailed
  ∧ trace w' = [mk_event (io_truncate 0) false;
                mk_event (io_write (offset_index_to_buf example_entries)) false].
Proof.
  destruct (flush_clears_dirty_before_io (dirty_example_world [io_ok; io_error 5]))
    as (Hd & Hpos & _ & Hfail & _).
  - reflexivity.
  - destruct (Hfail 1%nat 5%nat) as (Hr & Htr).
    + lia.
    + concrete.
    + reflexivity.
    + repeat split; assumption.
Defined.

Lemma offset_index_buf_round_trip_witness :
  Forall entry_fits example_entries
  ∧ offset_index_from_buf (offset_index_to_buf example_entries)
    = example_entries.
Proof.
  assert (Forall entry_fits example_entries) as Hfits by concrete.
  split; [exact Hfits|].
  apply (proj1 (offset_index_buf_round_trip example_entries Hfits)).
Defined.

Lemma offset_below_base_is_fatal_witness :
  (maybe_track 99 0 10 example_world = (example_world, AssertFailed)
   ∧ lower_bound_pair 99 example_world = (example_world, AssertFailed)
   ∧ truncate 99 example_world = (example_world, AssertFailed))
  ∧ ((maybe_track 100 0 10 example_world).2 = Ok tt
     ∧ (∃ r, (lower_bound_pair 100 example_world).2 = Ok r)
     ∧ (truncate 100 example_world).2 ≠ AssertFailed).
Proof.
  split.
  - apply (proj1 (offset_below_base_is_fatal example_world 99 0 10)).
    simpl. lia.
  - apply (proj2 (offset_below_base_is_fatal example_world 100 0 10)).
    simpl. lia.
Defined.

Lemma truncate_beyond_last_entry_witness :
  let w := example_world in
  let s := index w in
  let w1 := set_index
              (mk_index (_base s) (_step s) (_acc s) (_needs_persistence s) 2700
                 (_positions s)) w in
  truncate_positions 2700 w = (w1, Ok tt)
  ∧ truncate 2700 w = flush w1
  ∧ _positions (index (truncate 2700 w).1) = _positions s
  ∧ _last_seen_offset (index (truncate 2700 w).1) = 2700
  ∧ (_needs_persistence s = false → truncate 2700 w = (w1, Ok tt))
  ∧ _needs_persistence (index (truncate 2700 w).1) = false.
Proof.
  apply (truncate_beyond_last_entry example_world 2700).
  - simpl. lia.
  - concrete.
  - concrete.
Defined.

(** * Further properties of the code *)

(** ** Lookups *)

Lemma logical_pair_in_range (s : segment_offset_index) (p : entry) (T : Z) :
  is_int64 (_base s) → is_int64 T → 0 ≤ p.1 → _base s + p.1 ≤ T →
  logical_pair s p = (_base s + p.1, p.2).
Proof.
  intros Hb HT Hp Hle. unfold logical_pair, offset_add.
  rewrite wrap_int64_id; [done|]. unfold is_int64 in *. lia.
Qed.

Lemma entries_ok_nonneg (l : list entry) (p : entry) :
  entries_ok l → p ∈ l → 0 ≤ p.1.
Proof.
  intros [_ Hfit] Hp. rewrite Forall_forall in Hfit.
  by destruct (Hfit p Hp) as [[? _] _].
Qed.

(** [lower_bound_pair] is a pure reader and never answers with an entry
    above the target, sorted list or not (a loaded file may hold anything):
    every answer is a stored entry whose relative offset is at most the
    target's. *)
Theorem lower_bound_pair_never_above_target (w : world) (o : Z) :
  (lower_bound_pair o w).1 = w
  ∧ ∀ found, (lower_bound_pair o w).2 = Ok (Some found) →
      ∃ p, p ∈ _positions (index w)
           ∧ found = logical_pair (index w) p
           ∧ p.1 ≤ relative_offset (_base (index w)) o.
Proof.
  split; [apply lower_bound_pair_world|].
  intros found. unfold lower_bound_pair. unfold_M.
  destruct (_ <=? _); simpl; [|intros ?; congruence].
  destruct (vector_empty _); simpl; [intros ?; congruence|].
  set (i := relative_offset _ _).
  destruct (_ !! _) as [p|] eqn:Hp; simpl; [|intros ?; congruence].
  apply list_elem_of_lookup_2 in Hp.
  destruct (Z.leb_spec p.1 i); simpl.
  - intros [= <-]. by exists p.
  - destruct (_ !! _) as [q|] eqn:Hq; simpl; [|intros ?; congruence].
    destruct (Z.leb_spec q.1 i); simpl; [|intros ?; congruence].
    intros [= <-]. exists q. split; [by eapply list_elem_of_lookup_2|done].
Qed.

(** [lower_bound], the position-only lookup.  Below the base it dies in
    the assertion of [lower_bound_pair] with the state as it was.  On a
    sorted list and for an offset at or above the base it leaves the state
    alone and returns the byte position of a stored entry with the
    greatest relative offset at or below the target's, and nothing exactly
    when every entry lies above. *)
Theorem lower_bound_position_of_greatest (w : world) (o : Z) :
  let s := index w in
  let i := relative_offset (_base s) o in
  (o < _base s → lower_bound o w = (w, AssertFailed))
  ∧ (_base s ≤ o → sorted_by_offset (_positions s) →
     ∃ r : option Z,
       lower_bound o w = (w, Ok r)
       ∧ match r with
         | Some pos =>
             ∃ p, p ∈ _positions s ∧ p.2 = pos ∧ p.1 ≤ i
                  ∧ ∀ q, q ∈ _positions s → q.1 ≤ i → q.1 ≤ p.1
         | None => ∀ q, q ∈ _positions s → i < q.1
         end).
Proof.
  cbv zeta. split.
  - intros Ho. unfold lower_bound, mbind, M_bind.
    by rewrite lower_bound_pair_below_base.
  - intros Ho Hs.
    destruct (lower_bound_pair_sorted w o Ho Hs) as (r & Heq & Hr).
    cbv zeta in Hr. unfold lower_bound, mbind, M_bind. rewrite Heq.
    destruct r as [found|].
    + destruct Hr as (p & Hp & -> & Hle & Hmax).
      exists (Some p.2). split; [done|]. by exists p.
    + by exists None.
Qed.

(** Lookups are monotone in the target: on a well-formed index, when the
    lookup of [o1] finds an entry, the lookup of any [o2 >= o1] finds one
    too, at a logical offset that is at least as large and at most [o2]. *)
Theorem lower_bound_pair_monotone (w : world) (o1 o2 : Z) :
  entries_ok (_positions (index w)) →
  is_int64 (_base (index w)) → is_int64 o2 →
  is_uint32 (o1 - _base (index w)) → is_uint32 (o2 - _base (index w)) →
  o1 ≤ o2 →
  ∀ off1 pos1, (lower_bound_pair o1 w).2 = Ok (Some (off1, pos1)) →
    ∃ off2 pos2, (lower_bound_pair o2 w).2 = Ok (Some (off2, pos2))
                 ∧ off1 ≤ off2 ≤ o2.
Proof.
  intros Hok Hb Ho2 Hr1 Hr2 Hle off1 pos1 Hfound.
  pose proof Hok as [Hs _].
  assert (is_int64 o1) as Ho1.
  { unfold is_int64, is_uint32 in *. lia. }
  destruct (lower_bound_pair_sorted w o1 ltac:(unfold is_uint32 in *; lia) Hs)
    as (r1 & Heq1 & Hres1).
  destruct (lower_bound_pair_sorted w o2 ltac:(unfold is_uint32 in *; lia) Hs)
    as (r2 & Heq2 & Hres2).
  cbv zeta in Hres1, Hres2.
  rewrite (relative_offset_id _ _ Hr1) in Hres1.
  rewrite (relative_offset_id _ _ Hr2) in Hres2.
  rewrite Heq1 in Hfound. rewrite Heq2. cbn [snd] in *.
  injection Hfound as ->.
  destruct Hres1 as (p1 & Hp1 & Hf1 & Hle1 & _).
  pose proof (entries_ok_nonneg _ _ Hok Hp1) as Hp1pos.
  rewrite (logical_pair_in_range _ p1 o1) in Hf1 by (done || lia).
  injection Hf1 as -> ->.
  destruct r2 as [found2|].
  - destruct Hres2 as (p2 & Hp2 & -> & Hle2 & Hmax2).
    pose proof (entries_ok_nonneg _ _ Hok Hp2) as Hp2pos.
    rewrite (logical_pair_in_range _ p2 o2) by (done || lia).
    eexists _, _. split; [done|].
    specialize (Hmax2 p1 Hp1). lia.
  - specialize (Hres2 p1 Hp1). lia.
Qed.

(** Every stored offset is found exactly: on a well-formed index the
    lookup of the logical offset of a stored entry returns that logical
    offset, with the byte position of an entry stored under it. *)
Theorem lower_bound_pair_finds_stored_offset (w : world) (p : entry) :
  entries_ok (_positions (index w)) →
  is_int64 (_base (index w)) →
  is_int64 (_base (index w) + p.1) →
  p ∈ _positions (index w) →
  ∃ pos, lower_bound_pair (_base (index w) + p.1) w
         = (w, Ok (Some (_base (index w) + p.1, pos)))
         ∧ (p.1, pos) ∈ _positions (index w).
Proof.
  intros Hok Hb HT Hp. pose proof Hok as [Hs Hfit].
  pose proof (entries_ok_nonneg _ _ Hok Hp) as Hpos.
  assert (is_uint32 p.1) as Hp32.
  { rewrite Forall_forall in Hfit. by destruct (Hfit p Hp). }
  destruct (lower_bound_pair_sorted w (_base (index w) + p.1) ltac:(lia) Hs)
    as (r & Heq & Hres).
  cbv zeta in Hres. rewrite relative_offset_id in Hres
    by (by replace (_base (index w) + p.1 - _base (index w)) with p.1 by lia).
  replace (_base (index w) + p.1 - _base (index w)) with p.1 in Hres by lia.
  destruct r as [found|].
  - destruct Hres as (q & Hq & -> & Hle & Hmax).
    pose proof (entries_ok_nonneg _ _ Hok Hq) as Hqpos.
    specialize (Hmax p Hp ltac:(lia)).
    assert (q.1 = p.1) as Heqo by lia.
    rewrite (logical_pair_in_range _ q (_base (index w) + p.1)) in Heq
      by (done || lia).
    exists q.2. rewrite Heq, Heqo. split; [done|].
    rewrite <- Heqo. by destruct q.
  - specialize (Hres p Hp). lia.
Qed.

(** ** More on [flush] *)

Lemma flush_dirty_completes (w : world) :
  _needs_persistence (index w) = true →
  Forall succeeds (take 4 (plan w)) →
  flush w
  = (mk_world (set_needs_persistence false (index w))
       (offset_index_to_buf (_positions (index w)))
       (trace w ++ flush_events (index w)) (drop 4 (plan w)), Ok tt).
Proof.
  intros Hd Hall.
  destruct (flush_dirty w Hd) as (k & c & r & Heq & Hk & Hok & Hr).
  destruct Hr as [(-> & -> & _ & ->)|(-> & (n & Hkn) & _)]; [done|].
  exfalso. rewrite Forall_lookup in Hall.
  specialize (Hall k (io_error n)).
  rewrite lookup_take_lt in Hall by lia. by specialize (Hall Hkn).
Qed.

Lemma flush_dirty_fails (w : world) (k n : nat) :
  _needs_persistence (index w) = true →
  (k < 4)%nat → Forall succeeds (take k (plan w)) →
  plan w !! k = Some (io_error n) →
  ∃ c, flush w
       = (mk_world (set_needs_persistence false (index w)) c
            (trace w ++ take (S k) (flush_events (index w)))
            (drop (S k) (plan w)), IoFailed).
Proof.
  intros Hd Hk Hpre Hkn.
  assert (∀ j m, plan w !! j = Some (io_error m) →
                 Forall succeeds (take (S j) (plan w)) → False) as Hbad.
  { intros j m Hj Hall. rewrite Forall_lookup in Hall.
    specialize (Hall j (io_error m)). rewrite lookup_take_lt in Hall by lia.
    by specialize (Hall Hj). }
  destruct (flush_dirty w Hd) as (k' & c & r & Heq & Hk' & Hok & Hr).
  destruct Hr as [(-> & -> & Hall & _)|(-> & (m & Hkm) & _)].
  - exfalso. apply (Hbad k n Hkn).
    apply (Forall_take_le _ _ (S k) 4); [lia|done].
  - destruct (Nat.lt_trichotomy k k') as [Hlt|[->|Hgt]].
    + exfalso. apply (Hbad k n Hkn).
      apply (Forall_take_le _ _ (S k) k'); [lia|done].
    + by exists c.
    + exfalso. apply (Hbad k' m Hkm).
      apply (Forall_take_le _ _ (S k') k); [lia|done].
Qed.

(** ** More on [maybe_track] *)

(** Reducing to 32 bits never increases a relative offset. *)
Lemma relative_offset_le (b o : Z) :
  b ≤ o → 0 ≤ relative_offset b o ≤ o - b.
Proof.
  intros Hge. rewrite relative_offset_mod. unfold uint32_modulus. split.
  - apply Z.mod_pos_bound. lia.
  - apply Z.mod_le; lia.
Qed.

Lemma sorted_by_offset_le_last (l : list entry) (p back : entry) :
  sorted_by_offset l → p ∈ l → last l = Some back → p.1 ≤ back.1.
Proof.
  intros Hs Hp Hl. apply list_elem_of_lookup in Hp as [j Hj].
  rewrite last_lookup in Hl.
  apply (sorted_by_offset_lookup l j (pred (length l)) p back Hs); [|done..].
  apply lookup_lt_Some in Hj. lia.
Qed.

(** [maybe_track] works in memory only and never removes or reorders:
    for every input the file, its log and the plan are untouched, base and
    step are kept, and the entry list is the old one or the old one with
    one entry appended (then the index is dirty with an empty
    accumulator). *)
Theorem maybe_track_only_appends (w : world) (o pos data_size : Z) :
  let w' := (maybe_track o pos data_size w).1 in
  contents w' = contents w ∧ trace w' = trace w ∧ plan w' = plan w
  ∧ _base (index w') = _base (index w)
  ∧ _step (index w') = _step (index w)
  ∧ (_positions (index w') = _positions (index w)
     ∨ ∃ e, _positions (index w') = _positions (index w) ++ [e]
            ∧ _needs_persistence (index w') = true
            ∧ _acc (index w') = 0).
Proof.
  cbv zeta. destruct (Z.lt_ge_cases o (_base (index w))) as [Ho|Ho].
  { rewrite maybe_track_below_base by done. simpl. by repeat split; try left. }
  destruct (is_earlier_offset (index w) o) eqn:He.
  { rewrite maybe_track_earlier by done. simpl. by repeat split; try left. }
  rewrite maybe_track_accepted by done. simpl.
  destruct (_ <=? _); simpl.
  - repeat split; try done. right. by eexists.
  - repeat split; try done. by left.
Qed.

(** Track, then look up: on a well-formed index, when a call passes the
    assertion, its relative offset (the offset minus the base, reduced to
    32 bits as line 44 stores it) lies strictly after the last stored
    entry or the list is empty, and its payload brings the accumulator to
    the step, a lookup of the same offset right after it returns the entry
    just stored: the base plus that relative offset, with the 32-bit byte
    position.  The returned offset is the tracked one whenever the offset
    minus the base fits 32 bits. *)
Theorem maybe_track_then_lookup (w : world) (o pos data_size : Z) :
  entries_ok (_positions (index w)) →
  is_int64 (_base (index w)) → is_int64 o →
  _base (index w) ≤ o →
  (∀ back, last (_positions (index w)) = Some back →
           back.1 < relative_offset (_base (index w)) o) →
  _step (index w) ≤ size_add (_acc (index w)) data_size →
  let w' := (maybe_track o pos data_size w).1 in
  let i := relative_offset (_base (index w)) o in
  lower_bound_pair o w'
  = (w', Ok (Some (_base (index w) + i, cast_uint32 pos)))
  ∧ (is_uint32 (o - _base (index w)) → _base (index w) + i = o).
Proof.
  intros Hok Hb Ho Hge Hlast Hstep. cbv zeta.
  split; [|intros Hrel; rewrite relative_offset_id by done; lia].
  assert (is_earlier_offset (index w) o = false) as He.
  { apply is_earlier_offset_false. intros back Hback.
    specialize (Hlast back Hback). lia. }
  pose proof (relative_offset_le (_base (index w)) o Hge) as Hi.
  rewrite maybe_track_accepted in * by done.
  destruct (Z.leb_spec (_step (index w))
              (size_add (_acc (index w)) data_size)) as [_|?]; [|lia].
  cbn [fst] in *.
  set (i := relative_offset (_base (index w)) o) in *.
  set (w' := set_index _ w) in *.
  assert (sorted_by_offset (_positions (index w'))) as Hs'.
  { subst w'. simpl. apply sorted_by_offset_snoc; [apply Hok|].
    intros back Hback. specialize (Hlast back Hback). simpl. lia. }
  destruct (lower_bound_pair_sorted w' o Hge Hs') as (r & Heq & Hres).
  cbv zeta in Hres. rewrite Heq. f_equal. f_equal.
  subst w'. simpl in Hres. fold i in Hres.
  assert ((i, cast_uint32 pos) ∈ _positions (index w) ++ [(i, cast_uint32 pos)])
    as Hnew by (apply elem_of_app; right; by left).
  destruct r as [found|].
  2:{ specialize (Hres _ Hnew). simpl in Hres. lia. }
  destruct Hres as (p & Hp & -> & Hle & Hmax).
  specialize (Hmax _ Hnew). simpl in Hmax.
  apply elem_of_app in Hp as [Hp|Hp].
  - exfalso. destruct (last (_positions (index w))) as [back|] eqn:Hback.
    + pose proof (sorted_by_offset_le_last _ p back (proj1 Hok) Hp Hback).
      specialize (Hlast back eq_refl). lia.
    + apply last_None in Hback. rewrite Hback in Hp.
      by apply elem_of_nil in Hp.
  - apply list_elem_of_singleton in Hp as ->.
    unfold logical_pair, offset_add. simpl. f_equal. f_equal.
    apply wrap_int64_id. unfold is_int64 in *. lia.
Qed.

(** ** More on [truncate] *)

Lemma lower_bound_loop_none_below (v : list entry) (needle : Z) (fuel : nat) :
  Forall (λ p, needle ≤ p.1) v →
  ∀ first count : nat,
    lower_bound_loop fuel v needle first count = first.
Proof.
  intros Hall. rewrite Forall_lookup in Hall.
  induction fuel as [|fuel IH]; intros first count; [done|].
  destruct count as [|c]; [done|].
  cbn [lower_bound_loop].
  destruct (v !! _) as [p|] eqn:Hp; [|done].
  unfold base_comparator. pose proof (Hall _ _ Hp) as Hge. simpl in Hge.
  destruct (Z.ltb_spec p.1 needle); [lia|]. apply IH.
Qed.

Lemma std_lower_bound_none_below (v : list entry) (needle : Z) :
  Forall (λ p, needle ≤ p.1) v → std_lower_bound v needle = 0%nat.
Proof. intros Hall. by apply lower_bound_loop_none_below. Qed.

(** The object after a [truncate] that passed its assertion. *)
Lemma truncate_index (w : world) (o : Z) :
  _base (index w) ≤ o →
  let s := index w in
  let s' := index (truncate o w).1 in
  _base s' = _base s ∧ _step s' = _step s ∧ _acc s' = _acc s
  ∧ _last_seen_offset s' = o
  ∧ _needs_persistence s' = false
  ∧ _positions s'
    = take (std_lower_bound (_positions s) (relative_offset (_base s) o))
           (_positions s).
Proof.
  intros Ho. cbv zeta. rewrite truncate_eq by done.
  destruct (flush_index (truncate_positions o w).1)
    as (-> & -> & -> & -> & -> & ->).
  rewrite truncate_positions_eq. simpl.
  destruct (Nat.eqb_spec (std_lower_bound (_positions (index w))
                            (relative_offset (_base (index w)) o))
              (length (_positions (index w)))) as [->|_]; simpl.
  - by rewrite firstn_all.
  - done.
Qed.

(** [truncate] never adds or reorders entries: for every input, sorted
    list or not, what remains is a prefix of the old list, and base, step
    and accumulator are kept. *)
Theorem truncate_keeps_a_prefix (w : world) (o : Z) :
  let s := index w in
  let s' := index (truncate o w).1 in
  (∃ k, _positions s' = take k (_positions s))
  ∧ _base s' = _base s ∧ _step s' = _step s ∧ _acc s' = _acc s.
Proof.
  cbv zeta. destruct (Z.lt_ge_cases o (_base (index w))) as [Ho|Ho].
  - rewrite truncate_below_base by done. simpl.
    split; [|done]. exists (length (_positions (index w))).
    by rewrite firstn_all.
  - destruct (truncate_index w o Ho) as (-> & -> & -> & _ & _ & ->).
    split; [by eexists|done].
Qed.

(** Truncate, then look up: on a well-formed index and for every [X] at
    or above the base, right after [truncate X] a lookup of [X] changes
    nothing and finds, if anything, an entry of the old list that lies
    strictly below [X]. *)
Theorem truncate_then_lookup_below (w : world) (X : Z) :
  entries_ok (_positions (index w)) →
  is_int64 (_base (index w)) → is_int64 X →
  _base (index w) ≤ X →
  let w' := (truncate X w).1 in
  ∃ r, lower_bound_pair X w' = (w', Ok r)
       ∧ ∀ off pos, r = Some (off, pos) →
           off < X ∧ (off - _base (index w), pos) ∈ _positions (index w).
Proof.
  intros Hok Hb HX Hge. cbv zeta.
  destruct (truncate_index w X Hge) as (Hbase & _ & _ & _ & _ & Hpos).
  pose proof (relative_offset_le (_base (index w)) X Hge) as Hi.
  destruct (std_lower_bound_sorted (_positions (index w))
              (relative_offset (_base (index w)) X) (proj1 Hok))
    as (Hk & Hlo & _).
  set (i := relative_offset (_base (index w)) X) in *.
  set (k := std_lower_bound _ _) in *.
  set (w' := (truncate X w).1) in *.
  assert (sorted_by_offset (_positions (index w'))) as Hs'.
  { rewrite Hpos. apply sorted_by_offset_take, Hok. }
  destruct (lower_bound_pair_sorted w' X ltac:(lia) Hs') as (r & Heq & Hres).
  exists r. split; [done|]. intros off pos ->.
  cbv zeta in Hres. destruct Hres as (p & Hp & Hfound & _ & _).
  rewrite Hpos in Hp. apply list_elem_of_lookup in Hp as [j Hj].
  apply lookup_take_Some in Hj as [Hj Hjk].
  pose proof (Hlo j p Hjk Hj) as Hbelow.
  assert (p ∈ _positions (index w)) as Hin by (by eapply list_elem_of_lookup_2).
  pose proof (entries_ok_nonneg _ _ Hok Hin) as Hnonneg.
  rewrite (logical_pair_in_range _ p X) in Hfound by (rewrite ?Hbase; done || lia).
  injection Hfound as -> ->. rewrite Hbase.
  split; [lia|].
  replace (_base (index w) + p.1 - _base (index w)) with p.1 by lia.
  by destruct p.
Qed.

(** [truncate] is idempotent: on a sorted index a second [truncate X]
    right after a first one returns at once with the whole state, file and
    log included, as the first one left it. *)
Theorem truncate_twice (w : world) (X : Z) :
  _base (index w) ≤ X →
  sorted_by_offset (_positions (index w)) →
  truncate X (truncate X w).1 = ((truncate X w).1, Ok tt).
Proof.
  intros Hge Hs.
  destruct (truncate_index w X Hge) as (Hbase & _ & _ & Hlast & Hclean & Hpos).
  destruct (std_lower_bound_sorted (_positions (index w))
              (relative_offset (_base (index w)) X) Hs) as (_ & Hlo & _).
  set (i := relative_offset (_base (index w)) X) in *.
  set (k := std_lower_bound _ _) in *.
  destruct (truncate X w) as [[s1 c1 tr1 pl1] r1]. cbn [fst index] in *.
  assert (Forall (λ p : entry, p.1 < i) (_positions s1)) as Hall.
  { rewrite Hpos. apply Forall_lookup. intros j p Hj.
    apply lookup_take_Some in Hj as [Hj Hjk]. by apply (Hlo j). }
  rewrite truncate_eq by (simpl; lia).
  rewrite truncate_positions_eq. cbn [fst index].
  rewrite Hbase. fold i.
  rewrite (std_lower_bound_all_below _ _ Hall), Nat.eqb_refl.
  destruct s1 as [b st ac d ls v]. simpl in *. subst.
  by apply flush_clean.
Qed.

(** Truncating at the base offset empties the index: every entry (their
    relative offsets are not negative) is removed, and when entries were
    removed and the four file operations complete, the file is left
    empty. *)
Theorem truncate_at_base_clears (w : world) :
  Forall (λ p, 0 ≤ p.1) (_positions (index w)) →
  let w' := (truncate (_base (index w)) w).1 in
  _positions (index w') = []
  ∧ _last_seen_offset (index w') = _base (index w)
  ∧ (_positions (index w) ≠ [] → Forall succeeds (take 4 (plan w)) →
       (truncate (_base (index w)) w).2 = Ok tt ∧ contents w' = []).
Proof.
  intros Hall. cbv zeta.
  assert (relative_offset (_base (index w)) (_base (index w)) = 0) as Hrel.
  { rewrite relative_offset_mod, Z.sub_diag. done. }
  destruct (truncate_index w (_base (index w)) ltac:(lia))
    as (_ & _ & _ & Hlast & _ & Hpos).
  rewrite Hrel, (std_lower_bound_none_below _ _ Hall) in Hpos.
  split; [done|]. split; [done|].
  intros Hne Hplan.
  rewrite truncate_eq by lia. rewrite truncate_positions_eq.
  rewrite Hrel, (std_lower_bound_none_below _ _ Hall).
  destruct (Nat.eqb_spec 0 (length (_positions (index w)))) as [Hlen|_].
  { destruct (_positions (index w)); [done|simpl in Hlen; lia]. }
  cbn [fst]. rewrite flush_dirty_completes by done. done.
Qed.

(** ** [close] *)

Lemma file_call_completes {A : Type} (op : io_op) (value : list Z → A)
    (w : world) :
  Forall succeeds (take 1 (plan w)) →
  file_call op value w
  = (mk_world (index w) (io_effect op (contents w))
       (trace w ++ [mk_event op (_needs_persistence (index w))])
       (drop 1 (plan w)), Ok (value (contents w))).
Proof.
  intros Hok. unfold file_call.
  destruct (plan w) as [|[|n] pl]; [done..|].
  by apply Forall_cons in Hok as [? _].
Qed.

(** An orderly shutdown: when the file operations complete, [close]
    leaves the index clean with its entries as they were, and the last
    operation on the file is the close of the handle.  A dirty index is
    written out first (truncate, write, flush and close of the stream, then
    the handle), so the file holds the encoded entries; a clean index
    only closes the handle and the file keeps its contents. *)
Theorem close_flushes_then_closes (w : world) :
  Forall succeeds (take 5 (plan w)) →
  let w' := (close w).1 in
  let closing := mk_event io_file_close false in
  (close w).2 = Ok tt
  ∧ _needs_persistence (index w') = false
  ∧ _positions (index w') = _positions (index w)
  ∧ (_needs_persistence (index w) = true →
       contents w' = offset_index_to_buf (_positions (index w))
       ∧ trace w' = trace w ++ flush_events (index w) ++ [closing])
  ∧ (_needs_persistence (index w) = false →
       contents w' = contents w ∧ trace w' = trace w ++ [closing]).
Proof.
  intros Hplan. cbv zeta. unfold close, mbind, M_bind.
  destruct (_needs_persistence (index w)) eqn:Hd.
  - rewrite flush_dirty_completes
      by (done || by apply (Forall_take_le _ _ 4 5); [lia|]).
    rewrite file_call_completes.
    2:{ simpl. rewrite take_drop_commute. by apply Forall_drop. }
    simpl. rewrite <- app_assoc. by repeat split.
  - rewrite flush_clean by done.
    rewrite file_call_completes
      by (by apply (Forall_take_le _ _ 1 5); [lia|]).
    simpl. rewrite Hd. by repeat split.
Qed.

(** A failed flush keeps the handle open: when one of the four file
    operations of the flush of a dirty index fails, [close] completes
    with that failure and [_out.close()] is never issued. *)
Theorem close_after_failed_flush (w : world) (k n : nat) :
  _needs_persistence (index w) = true →
  (k < 4)%nat → Forall succeeds (take k (plan w)) →
  plan w !! k = Some (io_error n) →
  (close w).2 = IoFailed
  ∧ ∃ evs, trace (close w).1 = trace w ++ evs
           ∧ Forall (λ e, ev_op e ≠ io_file_close) evs.
Proof.
  intros Hd Hk Hpre Hkn. unfold close, mbind, M_bind.
  destruct (flush_dirty_fails w k n Hd Hk Hpre Hkn) as [c ->].
  split; [done|]. eexists. split; [done|].
  apply Forall_take. unfold flush_events. by repeat constructor.
Qed.

(** ** More on [materialize_index] *)

Lemma materialize_index_completes (w : world) :
  Forall succeeds (take 2 (plan w)) →
  let flag := _needs_persistence (index w) in
  let size := Z.of_nat (length (contents w)) in
  materialize_index w
  = (mk_world
       (if vector_empty (contents w) then index w
        else set_positions (offset_index_from_buf (contents w)) (index w))
       (contents w)
       (trace w ++ [mk_event io_size flag; mk_event (io_read_bulk 0 size) flag])
       (drop 2 (plan w)),
     Ok (negb (vector_empty (contents w)))).
Proof.
  intros Hok. destruct w as [s c tr pl]. cbv zeta.
  unfold materialize_index, file_call. unfold_M.
  assert (∀ n l l', ¬ Forall succeeds (l ++ io_error n :: l')) as Hfail.
  { intros n l l' Hall. apply Forall_app in Hall as [_ Hall].
    by apply Forall_cons in Hall as [? _]. }
  simpl in Hok.
  destruct pl as [|[|n0] pl]; simpl.
  - rewrite Nat2Z.id, firstn_all, <- app_assoc. by destruct c.
  - destruct pl as [|[|n1] pl]; simpl;
      rewrite ?Nat2Z.id, ?firstn_all, <- ?app_assoc.
    + by destruct c.
    + by destruct c.
    + by destruct (Hfail n1 [io_ok] (take 0 pl)).
  - by destruct (Hfail n0 [] (take 1 pl)).
Qed.

(** A load replaces the entries in memory by the decoded file: over a
    file that holds the encoding of a non-empty list of 32-bit entries, a
    completed [materialize_index] returns true and installs exactly that
    list, whatever the index held; base, step, accumulator, last seen
    offset and dirty flag keep their values and the file is not
    changed. *)
Theorem materialize_index_installs_file (w : world) (l : list entry) :
  Forall entry_fits l → l ≠ [] →
  contents w = offset_index_to_buf l →
  Forall succeeds (take 2 (plan w)) →
  let w' := (materialize_index w).1 in
  (materialize_index w).2 = Ok true
  ∧ _positions (index w') = l
  ∧ _needs_persistence (index w') = _needs_persistence (index w)
  ∧ _acc (index w') = _acc (index w)
  ∧ _last_seen_offset (index w') = _last_seen_offset (index w)
  ∧ _base (index w') = _base (index w)
  ∧ _step (index w') = _step (index w)
  ∧ contents w' = contents w.
Proof.
  intros Hfit Hne Hc Hplan. cbv zeta.
  rewrite materialize_index_completes by done. simpl.
  assert (vector_empty (contents w) = false) as ->.
  { rewrite Hc. destruct l as [|[o p] l]; done. }
  simpl. rewrite Hc, offset_index_from_to_buf by done. done.
Qed.

(** A load whose size query or read fails completes with the failure and
    leaves the object and the file as they were. *)
Theorem materialize_index_failed_read (w : world) :
  Exists (λ o, ¬ succeeds o) (take 2 (plan w)) →
  (materialize_index w).2 = IoFailed
  ∧ index (materialize_index w).1 = index w
  ∧ contents (materialize_index w).1 = contents w.
Proof.
  intros Hbad. destruct w as [s c tr pl].
  unfold materialize_index, file_call. unfold_M. simpl in Hbad.
  destruct pl as [|[|n0] pl]; simpl in *.
  - by apply Exists_nil in Hbad.
  - destruct pl as [|[|n1] pl]; simpl in *.
    + apply Exists_cons in Hbad as [Hbad|Hbad]; [by destruct Hbad|].
      by apply Exists_nil in Hbad.
    + apply Exists_cons in Hbad as [Hbad|Hbad]; [by destruct Hbad|].
      apply Exists_cons in Hbad as [Hbad|Hbad]; [by destruct Hbad|].
      by apply Exists_nil in Hbad.
    + done.
  - done.
Qed.

(** ** Histories, continued *)

Lemma maybe_track_file_untouched (w : world) (o pos data_size : Z) :
  let w' := (maybe_track o pos data_size w).1 in
  contents w' = contents w ∧ trace w' = trace w ∧ plan w' = plan w.
Proof.
  cbv zeta. destruct (Z.lt_ge_cases o (_base (index w))) as [Ho|Ho].
  { by rewrite maybe_track_below_base. }
  destruct (is_earlier_offset (index w) o) eqn:He.
  { by rewrite maybe_track_earlier. }
  by rewrite maybe_track_accepted.
Qed.

Lemma maybe_track_frame (w : world) (o pos data_size : Z) :
  let s := index w in
  let s' := index (maybe_track o pos data_size w).1 in
  _base s' = _base s ∧ _step s' = _step s ∧ (acc_ok s → acc_ok s').
Proof.
  cbv zeta. destruct (Z.lt_ge_cases o (_base (index w))) as [Ho|Ho].
  { by rewrite maybe_track_below_base. }
  destruct (is_earlier_offset (index w) o) eqn:He.
  { by rewrite maybe_track_earlier. }
  rewrite maybe_track_accepted by done. simpl.
  destruct (Z.leb_spec (_step (index w))
              (size_add (_acc (index w)) data_size)); simpl.
  - split; [done|]. split; [done|]. intros _. split; [done|by left].
  - split; [done|]. split; [done|]. intros _. unfold acc_ok. simpl.
    split; [|by right].
    unfold size_add, size_modulus. apply Z.mod_pos_bound. lia.
Qed.

Lemma perform_frame (op : operation) (w : world) :
  let s := index w in
  let s' := index (perform op w).1 in
  _base s' = _base s ∧ _step s' = _step s ∧ (acc_ok s → acc_ok s').
Proof.
  cbv zeta. destruct op as [o pos data_size|o|o| |]; simpl.
  - apply maybe_track_frame.
  - unfold mbind, M_bind.
    pose proof (lower_bound_pair_world w o) as Hpure.
    destruct (lower_bound_pair o w) as [w' [r| |]]; simpl in *; by subst.
  - destruct (Z.lt_ge_cases o (_base (index w))) as [Ho|Ho].
    { by rewrite truncate_below_base. }
    destruct (truncate_index w o Ho) as (Hb & Hst & Hacc & _).
    unfold acc_ok. by rewrite Hb, Hst, Hacc.
  - unfold mbind, M_bind.
    destruct (materialize_index_cases w)
      as (tr & pl & [(-> & _)|[(_ & -> & _)|(_ & -> & _)]]); done.
  - destruct (flush_index w) as (_ & _ & Hb & Hst & Hacc & _).
    unfold acc_ok. by rewrite Hb, Hst, Hacc.
Qed.

Lemma run_frame (ops : list operation) (w : world) :
  let s := index w in
  let s' := index (run ops w) in
  _base s' = _base s ∧ _step s' = _step s ∧ (acc_ok s → acc_ok s').
Proof.
  cbv zeta. revert w. induction ops as [|op ops IH]; intros w; [done|].
  simpl. destruct (perform_frame op w) as (Hb & Hst & Hacc).
  destruct (perform op w) as [w' [[]| |]]; simpl in *.
  - destruct (IH w') as (Hb' & Hst' & Hacc').
    rewrite Hb', Hst'. auto.
  - destruct (IH w') as (Hb' & Hst' & Hacc').
    rewrite Hb', Hst'. auto.
  - done.
Qed.

(** Base offset and step never change: after every history of calls,
    whatever fails, they are the values the index was constructed with. *)
Theorem base_and_step_are_immutable (base step last_seen : Z)
    (faults : list io_outcome) (ops : list operation) :
  let s := index (run ops (fresh_world base step last_seen faults)) in
  _base s = base ∧ _step s = step.
Proof.
  cbv zeta.
  destruct (run_frame ops (fresh_world base step last_seen faults))
    as (Hb & Hst & _).
  by rewrite Hb, Hst.
Qed.

(** Between calls the accumulator is never at or above the step unless it
    is empty: after every history it is 0 or a non-negative number of
    bytes strictly below the step, since reaching the step resets it. *)
Theorem accumulator_stays_below_step (base step last_seen : Z)
    (faults : list io_outcome) (ops : list operation) :
  let s := index (run ops (fresh_world base step last_seen faults)) in
  0 ≤ _acc s ∧ (_acc s = 0 ∨ _acc s < step).
Proof.
  cbv zeta.
  destruct (run_frame ops (fresh_world base step last_seen faults))
    as (_ & Hst & Hacc).
  simpl in Hst. destruct Hacc as [Hnonneg Hbelow]; [split; [done|by left]|].
  rewrite Hst in Hbelow. done.
Qed.

(** Tracking and looking up work in memory only: a history made of
    [maybe_track] and [lower_bound_pair] calls issues no file operation
    and leaves the file as it was. *)
Theorem in_memory_history_does_no_io (ops : list operation) (w : world) :
  Forall in_memory ops →
  contents (run ops w) = contents w
  ∧ trace (run ops w) = trace w
  ∧ plan (run ops w) = plan w.
Proof.
  intros Hops. revert w.
  induction Hops as [|op ops Hop _ IH]; intros w; [done|].
  assert (contents (perform op w).1 = contents w
          ∧ trace (perform op w).1 = trace w
          ∧ plan (perform op w).1 = plan w) as (Hc & Ht & Hp).
  { destruct op as [o pos data_size|o|o| |]; try done; simpl.
    - apply maybe_track_file_untouched.
    - unfold mbind, M_bind.
      pose proof (lower_bound_pair_world w o) as Hpure.
      destruct (lower_bound_pair o w) as [w' [r| |]]; simpl in *; by subst. }
  simpl. destruct (perform op w) as [w' [[]| |]]; simpl in *.
  - destruct (IH w') as (-> & -> & ->). done.
  - destruct (IH w') as (-> & -> & ->). done.
  - done.
Qed.

Lemma flush_synced (w : world) :
  Forall succeeds (plan w) → synced w →
  Forall succeeds (plan (flush w).1) ∧ synced (flush w).1.
Proof.
  intros Hplan Hsync. destruct (_needs_persistence (index w)) eqn:Hd.
  - rewrite flush_dirty_completes by (done || by apply Forall_take).
    split; [by apply Forall_drop|done].
  - by rewrite flush_clean.
Qed.

Lemma perform_synced (op : operation) (w : world) :
  world_ok w → Forall succeeds (plan w) → synced w →
  Forall succeeds (plan (perform op w).1) ∧ synced (perform op w).1.
Proof.
  intros Hok Hplan Hsync. destruct op as [o pos data_size|o|o| |]; simpl.
  - destruct (Z.lt_ge_cases o (_base (index w))) as [Ho|Ho].
    { by rewrite maybe_track_below_base. }
    destruct (is_earlier_offset (index w) o) eqn:He.
    { by rewrite maybe_track_earlier. }
    rewrite maybe_track_accepted by done. simpl. split; [done|].
    unfold synced. simpl. by destruct (_ <=? _).
  - unfold mbind, M_bind.
    pose proof (lower_bound_pair_world w o) as Hpure.
    destruct (lower_bound_pair o w) as [w' [r| |]]; simpl in *; by subst.
  - destruct (Z.lt_ge_cases o (_base (index w))) as [Ho|Ho].
    { by rewrite truncate_below_base. }
    rewrite truncate_eq by done. apply flush_synced.
    + by rewrite truncate_positions_eq.
    + rewrite truncate_positions_eq. unfold synced. simpl.
      by destruct (_ =? _)%nat.
  - unfold mbind, M_bind.
    rewrite materialize_index_completes by (by apply Forall_take).
    simpl. split; [by apply Forall_drop|].
    unfold synced. simpl. destruct (vector_empty (contents w)); [done|].
    simpl. intros Hd. rewrite (Hsync Hd).
    rewrite offset_index_from_to_buf; [done|apply Hok].
  - by apply flush_synced.
Qed.

Lemma run_synced (ops : list operation) (w : world) :
  world_ok w → Forall succeeds (plan w) → synced w → synced (run ops w).
Proof.
  revert w. induction ops as [|op ops IH]; intros w Hok Hplan Hsync; [done|].
  simpl. pose proof (perform_world_ok op w Hok) as Hok'.
  destruct (perform_synced op w Hok Hplan Hsync) as (Hplan' & Hsync').
  destruct (perform op w) as [w' [[]| |]]; simpl in *; auto.
Qed.

(** What the dirty flag promises: as long as no file operation fails,
    after every history of calls on a newly constructed index over an
    empty file, an index that is not dirty has a file that holds exactly
    the encoding of its entries. *)
Theorem clean_index_is_persisted (base step last_seen : Z)
    (faults : list io_outcome) (ops : list operation) :
  Forall succeeds faults →
  let w := run ops (fresh_world base step last_seen faults) in
  _needs_persistence (index w) = false →
  contents w = offset_index_to_buf (_positions (index w)).
Proof.
  intros Hplan. cbv zeta.
  apply (run_synced ops (fresh_world base step last_seen faults)).
  - apply fresh_world_ok.
  - done.
  - by intros _.
Qed.

(** ** Persistence end to end *)

(** A completed flush means persisted: when the [flush] of a dirty index
    completes without failure, the file holds exactly the encoding of the
    entries, whatever it held before. *)
Theorem flush_ok_means_persisted (w : world) :
  _needs_persistence (index w) = true →
  (flush w).2 = Ok tt →
  contents (flush w).1 = offset_index_to_buf (_positions (index w))
  ∧ trace (flush w).1 = trace w ++ flush_events (index w).
Proof.
  intros Hd Hr.
  destruct (flush_dirty w Hd) as (k & c & r & Heq & Hk & Hok & Hcase).
  rewrite Heq in *. cbn [fst snd contents trace] in *.
  destruct Hcase as [(_ & -> & _ & ->)|(-> & _)]; done.
Qed.

Lemma lower_bound_pair_result_ext (w1 w2 : world) (o : Z) :
  _base (index w1) = _base (index w2) →
  _positions (index w1) = _positions (index w2) →
  (lower_bound_pair o w1).2 = (lower_bound_pair o w2).2.
Proof.
  intros Hb Hp. unfold lower_bound_pair, logical_pair. unfold_M.
  rewrite Hb, Hp.
  destruct (_ <=? _); [|done].
  destruct (vector_empty _); [done|].
  repeat (match goal with
          | |- context [match ?l !! ?i with _ => _ end] => destruct (l !! i)
          | |- context [if ?b then _ else _] => destruct b
          end; try done).
Qed.

(** Lookups survive a restart: after a completed flush of a dirty,
    non-empty index of 32-bit entries, any index object with the same base
    that loads the file (both reads completing) holds the same entries and
    answers every lookup as the flushed index does. *)
Theorem restart_preserves_lookups (w : world) (s2 : segment_offset_index)
    (tr2 : list io_event) (plan2 : list io_outcome) (o : Z) :
  Forall entry_fits (_positions (index w)) →
  _positions (index w) ≠ [] →
  _needs_persistence (index w) = true →
  (flush w).2 = Ok tt →
  _base s2 = _base (index w) →
  Forall succeeds (take 2 plan2) →
  let w2 := mk_world s2 (contents (flush w).1) tr2 plan2 in
  let w3 := (materialize_index w2).1 in
  (materialize_index w2).2 = Ok true
  ∧ _positions (index w3) = _positions (index w)
  ∧ (lower_bound_pair o w3).2 = (lower_bound_pair o w).2.
Proof.
  intros Hfit Hne Hd Hr Hb Hplan. cbv zeta.
  destruct (flush_dirty w Hd) as (k & c & r & Heq & Hk & Hok & Hcase).
  rewrite Heq in *. cbn [fst snd contents] in *.
  destruct Hcase as [(_ & _ & _ & ->)|(-> & _)]; [|done].
  rewrite materialize_index_completes by done. cbn [fst snd contents].
  assert (vector_empty (offset_index_to_buf (_positions (index w))) = false)
    as ->.
  { destruct (_positions (index w)) as [|[a b] l]; done. }
  rewrite offset_index_from_to_buf by done.
  split; [done|]. split; [done|].
  by apply lower_bound_pair_result_ext.
Qed.

(** The index sees offsets modulo 2^32: a lookup of [o + 2^32] behaves
    exactly like the lookup of [o] (for [o] at or above the base), because
    the target is reduced to a 32-bit relative offset before the search. *)
Theorem lookup_wraps_at_32_bits (w : world) (o : Z) :
  _base (index w) ≤ o →
  lower_bound_pair (o + uint32_modulus) w = lower_bound_pair o w.
Proof.
  intros Ho. unfold lower_bound_pair. unfold_M.
  destruct (Z.leb_spec (_base (index w)) o); [|lia].
  destruct (Z.leb_spec (_base (index w)) (o + uint32_modulus));
    [|unfold uint32_modulus in *; lia].
  assert (relative_offset (_base (index w)) (o + uint32_modulus)
          = relative_offset (_base (index w)) o) as ->; [|done].
  rewrite !relative_offset_mod.
  replace (o + uint32_modulus - _base (index w))
    with (o - _base (index w) + 1 * uint32_modulus) by lia.
  apply Z.mod_add. unfold uint32_modulus. lia.
Qed.

(** ** The further properties at concrete indexes *)

Lemma lower_bound_pair_never_above_target_witness :
  ∃ p, p ∈ example_entries
       ∧ (1100, 512) = logical_pair (index example_world) p
       ∧ p.1 ≤ relative_offset 100 1600.
Proof.
  apply (proj2 (lower_bound_pair_never_above_target example_world 1600)).
  reflexivity.
Defined.

Lemma lower_bound_position_of_greatest_witness :
  lower_bound 99 example_world = (example_world, AssertFailed)
  ∧ ∃ r : option Z, lower_bound 1600 example_world = (example_world, Ok r).
Proof.
  split.
  - apply (proj1 (lower_bound_position_of_greatest example_world 99)).
    simpl. lia.
  - destruct (proj2 (lower_bound_position_of_greatest example_world 1600))
      as (r & Hr & _).
    + simpl. lia.
    + concrete.
    + by exists r.
Defined.

Lemma lower_bound_pair_monotone_witness :
  ∃ off2 pos2,
    (lower_bound_pair 1600 example_world).2 = Ok (Some (off2, pos2))
    ∧ 100 ≤ off2 ≤ 1600.
Proof.
  apply (lower_bound_pair_monotone example_world 600 1600) with (pos1 := 0).
  - split; concrete.
  - concrete.
  - concrete.
  - concrete.
  - concrete.
  - lia.
  - reflexivity.
Defined.

Lemma lower_bound_pair_finds_stored_offset_witness :
  ∃ pos, lower_bound_pair (100 + 1000) example_world
         = (example_world, Ok (Some (100 + 1000, pos)))
         ∧ (1000, pos) ∈ example_entries.
Proof.
  apply (lower_bound_pair_finds_stored_offset example_world (1000, 512)).
  - split; concrete.
  - concrete.
  - concrete.
  - right. left.
Defined.

Lemma maybe_track_then_lookup_witness :
  let w' := (maybe_track 3000 2000 4096 example_world).1 in
  lower_bound_pair 3000 w' = (w', Ok (Some (3000, cast_uint32 2000)))
  ∧ (is_uint32 (3000 - 100) → 100 + relative_offset 100 3000 = 3000).
Proof.
  apply (maybe_track_then_lookup example_world 3000 2000 4096).
  - split; concrete.
  - concrete.
  - concrete.
  - simpl. lia.
  - intros back [= <-]. vm_compute. reflexivity.
  - vm_compute. congruence.
Defined.

Lemma truncate_then_lookup_below_witness :
  let w' := (truncate 1100 example_world).1 in
  ∃ r, lower_bound_pair 1100 w' = (w', Ok r)
       ∧ ∀ off pos, r = Some (off, pos) →
           off < 1100 ∧ (off - 100, pos) ∈ example_entries.
Proof.
  apply (truncate_then_lookup_below example_world 1100).
  - split; concrete.
  - concrete.
  - concrete.
  - simpl. lia.
Defined.

Lemma truncate_twice_witness :
  truncate 1100 (truncate 1100 example_world).1
  = ((truncate 1100 example_world).1, Ok tt).
Proof.
  apply (truncate_twice example_world 1100).
  - simpl. lia.
  - concrete.
Defined.

Lemma truncate_at_base_clears_witness :
  let w' := (truncate 100 example_world).1 in
  _positions (index w') = []
  ∧ _last_seen_offset (index w') = 100
  ∧ (truncate 100 example_world).2 = Ok tt
  ∧ contents w' = [].
Proof.
  destruct (truncate_at_base_clears example_world) as (Hpos & Hlast & Hfile).
  - concrete.
  - destruct Hfile as (Hr & Hc); [done|concrete|].
    repeat split; assumption.
Defined.

Lemma close_flushes_then_closes_witness :
  let w' := (close (dirty_example_world [])).1 in
  (close (dirty_example_world [])).2 = Ok tt
  ∧ _needs_persistence (index w') = false
  ∧ contents w' = offset_index_to_buf example_entries.
Proof.
  destruct (close_flushes_then_closes (dirty_example_world []))
    as (Hr & Hd & _ & Hdirty & _).
  - concrete.
  - destruct Hdirty as (Hc & _); [reflexivity|].
    repeat split; assumption.
Defined.

Lemma close_after_failed_flush_witness :
  let w := dirty_example_world [io_ok; io_error 5] in
  (close w).2 = IoFailed
  ∧ ∃ evs, trace (close w).1 = trace w ++ evs
           ∧ Forall (λ e, ev_op e ≠ io_file_close) evs.
Proof.
  apply (close_after_failed_flush (dirty_example_world [io_ok; io_error 5])
           1 5).
  - reflexivity.
  - lia.
  - concrete.
  - reflexivity.
Defined.

Lemma materialize_index_installs_file_witness :
  let w := unloaded_example_world [] in
  (materialize_index w).2 = Ok true
  ∧ _positions (index (materialize_index w).1) = example_entries.
Proof.
  destruct (materialize_index_installs_file (unloaded_example_world [])
              example_entries) as (Hr & Hpos & _).
  - concrete.
  - done.
  - reflexivity.
  - concrete.
  - split; assumption.
Defined.

Lemma materialize_index_failed_read_witness :
  let w := unloaded_example_world [io_ok; io_error 0] in
  (materialize_index w).2 = IoFailed
  ∧ index (materialize_index w).1 = index w
  ∧ contents (materialize_index w).1 = contents w.
Proof.
  apply (materialize_index_failed_read
           (unloaded_example_world [io_ok; io_error 0])).
  simpl. apply Exists_cons_tl, Exists_cons_hd. unfold succeeds. congruence.
Defined.

Lemma in_memory_history_does_no_io_witness :
  let ops := [op_track 100 0 4096; op_lookup 100; op_track 90 0 1] in
  let w := fresh_world 100 4096 0 [io_error 0] in
  contents (run ops w) = contents w
  ∧ trace (run ops w) = trace w
  ∧ plan (run ops w) = plan w.
Proof.
  apply (in_memory_history_does_no_io
           [op_track 100 0 4096; op_lookup 100; op_track 90 0 1]).
  repeat constructor.
Defined.

Lemma clean_index_is_persisted_witness :
  let w := run [op_track 100 0 4096; op_track 200 900 4096; op_flush]
               (fresh_world 100 4096 0 []) in
  contents w = offset_index_to_buf (_positions (index w)).
Proof.
  apply (clean_index_is_persisted 100 4096 0 []
           [op_track 100 0 4096; op_track 200 900 4096; op_flush]).
  - constructor.
  - reflexivity.
Defined.

Lemma flush_ok_means_persisted_witness :
  let w := dirty_example_world [] in
  contents (flush w).1 = offset_index_to_buf example_entries
  ∧ trace (flush w).1 = trace w ++ flush_events (index w).
Proof.
  apply (flush_ok_means_persisted (dirty_example_world [])).
  - reflexivity.
  - reflexivity.
Defined.

Lemma restart_preserves_lookups_witness :
  let w := dirty_example_world [] in
  let w2 := mk_world (mk_index 100 4096 0 false 0 [])
              (contents (flush w).1) [] [] in
  let w3 := (materialize_index w2).1 in
  (materialize_index w2).2 = Ok true
  ∧ _positions (index w3) = example_entries
  ∧ (lower_bound_pair 1600 w3).2 = (lower_bound_pair 1600 w).2.
Proof.
  apply (restart_preserves_lookups (dirty_example_world [])
           (mk_index 100 4096 0 false 0 []) [] [] 1600).
  - concrete.
  - done.
  - reflexivity.
  - reflexivity.
  - reflexivity.
  - concrete.
Defined.

Lemma lookup_wraps_at_32_bits_witness :
  lower_bound_pair (1600 + uint32_modulus) example_world
  = lower_bound_pair 1600 example_world.
Proof.
  apply (lookup_wraps_at_32_bits example_world 1600). simpl. lia.
Defined.
